(** * apalis-tools: partition-table, GPT and config-block decoders

    A shallow embedding of the decoding logic of [nvtegraparts.c] and
    [trdx-configblock.c], with the properties of the decoders proved over it.

    Conventions of the embedding.
    - A byte is a [Byte.byte]; its numeric value is [b2z].  A [uint32_t] is a
      [Z] in [[0, 2^32)]; the C code only xors, masks and right-shifts such
      values, so no wrap-around appears except where written out.
    - The tools run on the (little-endian) ARM module itself and read struct
      fields in host byte order; [le32toh] and friends are the identity
      there.  A [uint32_t] field at byte offset [o] is therefore [le32 buf o].
    - A read through a pointer that leaves the object it points into is
      undefined behaviour in C; the embedding makes such reads explicit
      (an [option], or an out-of-range outcome).
    - Functions of the C library ([c16rtomb], [mbrlen]) are parameters;
      a call the library gives no defined result for is an outcome of its
      own. *)

From Stdlib Require Import ZArith List Bool Lia.
From Stdlib.Strings Require Import Byte.
From Stdlib.Strings Require String.
Import String.StringSyntax.
Import ListNotations.
Delimit Scope string_scope with string.
Local Open Scope Z_scope.

(** ** Bytes and little-endian fields *)

Definition b2z (b : byte) : Z := Z.of_N (Byte.to_N b).

Definition z2b (z : Z) : byte :=
  match Byte.of_N (Z.to_N (z mod 256)) with
  | Some b => b
  | None => x00
  end.

(** [buf[i]], with [x00] outside the buffer; used only where the index is
    statically inside the object (fixed struct offsets). *)
Definition byte_at (buf : list byte) (i : nat) : Z := b2z (nth i buf x00).

Definition le16 (buf : list byte) (o : nat) : Z :=
  Z.lor (byte_at buf o) (Z.shiftl (byte_at buf (o + 1)) 8).

Definition le32 (buf : list byte) (o : nat) : Z :=
  Z.lor (Z.lor (byte_at buf o) (Z.shiftl (byte_at buf (o + 1)) 8))
        (Z.lor (Z.shiftl (byte_at buf (o + 2)) 16)
               (Z.shiftl (byte_at buf (o + 3)) 24)).

(** [memcmp(buf + o, pat, n) == 0] for [n = length pat]. *)
Definition bytes_eqb (a b : list byte) : bool :=
  if list_eq_dec Byte.byte_eq_dec a b then true else false.

Definition slice (buf : list byte) (o n : nat) : list byte :=
  firstn n (skipn o buf).

Definition memcmp0 (buf : list byte) (o : nat) (pat : list byte) : bool :=
  bytes_eqb (slice buf o (length pat)) pat.

(** [buf[i] = b] as a functional update (no effect outside the buffer). *)
Fixpoint poke (buf : list byte) (i : nat) (b : byte) : list byte :=
  match buf, i with
  | [], _ => []
  | _ :: t, O => b :: t
  | h :: t, S i' => h :: poke t i' b
  end.

(** The four bytes of a little-endian word, and zero padding to [n] bytes;
    used to write down concrete inputs. *)
Definition le32_bytes (v : Z) : list byte :=
  [z2b v; z2b (Z.shiftr v 8); z2b (Z.shiftr v 16); z2b (Z.shiftr v 24)].

Definition pad (n : nat) (l : list byte) : list byte :=
  l ++ repeat x00 (n - length l).

(** ** CRC32 engine ([crc32_tab], [crc32]) *)

Module Crc32.

Definition crc32_tab : list Z :=
  [
    0x00000000; 0x77073096; 0xee0e612c; 0x990951ba; 0x076dc419; 0x706af48f;
    0xe963a535; 0x9e6495a3; 0x0edb8832; 0x79dcb8a4; 0xe0d5e91e; 0x97d2d988;
    0x09b64c2b; 0x7eb17cbd; 0xe7b82d07; 0x90bf1d91; 0x1db71064; 0x6ab020f2;
    0xf3b97148; 0x84be41de; 0x1adad47d; 0x6ddde4eb; 0xf4d4b551; 0x83d385c7;
    0x136c9856; 0x646ba8c0; 0xfd62f97a; 0x8a65c9ec; 0x14015c4f; 0x63066cd9;
    0xfa0f3d63; 0x8d080df5; 0x3b6e20c8; 0x4c69105e; 0xd56041e4; 0xa2677172;
    0x3c03e4d1; 0x4b04d447; 0xd20d85fd; 0xa50ab56b; 0x35b5a8fa; 0x42b2986c;
    0xdbbbc9d6; 0xacbcf940; 0x32d86ce3; 0x45df5c75; 0xdcd60dcf; 0xabd13d59;
    0x26d930ac; 0x51de003a; 0xc8d75180; 0xbfd06116; 0x21b4f4b5; 0x56b3c423;
    0xcfba9599; 0xb8bda50f; 0x2802b89e; 0x5f058808; 0xc60cd9b2; 0xb10be924;
    0x2f6f7c87; 0x58684c11; 0xc1611dab; 0xb6662d3d; 0x76dc4190; 0x01db7106;
    0x98d220bc; 0xefd5102a; 0x71b18589; 0x06b6b51f; 0x9fbfe4a5; 0xe8b8d433;
    0x7807c9a2; 0x0f00f934; 0x9609a88e; 0xe10e9818; 0x7f6a0dbb; 0x086d3d2d;
    0x91646c97; 0xe6635c01; 0x6b6b51f4; 0x1c6c6162; 0x856530d8; 0xf262004e;
    0x6c0695ed; 0x1b01a57b; 0x8208f4c1; 0xf50fc457; 0x65b0d9c6; 0x12b7e950;
    0x8bbeb8ea; 0xfcb9887c; 0x62dd1ddf; 0x15da2d49; 0x8cd37cf3; 0xfbd44c65;
    0x4db26158; 0x3ab551ce; 0xa3bc0074; 0xd4bb30e2; 0x4adfa541; 0x3dd895d7;
    0xa4d1c46d; 0xd3d6f4fb; 0x4369e96a; 0x346ed9fc; 0xad678846; 0xda60b8d0;
    0x44042d73; 0x33031de5; 0xaa0a4c5f; 0xdd0d7cc9; 0x5005713c; 0x270241aa;
    0xbe0b1010; 0xc90c2086; 0x5768b525; 0x206f85b3; 0xb966d409; 0xce61e49f;
    0x5edef90e; 0x29d9c998; 0xb0d09822; 0xc7d7a8b4; 0x59b33d17; 0x2eb40d81;
    0xb7bd5c3b; 0xc0ba6cad; 0xedb88320; 0x9abfb3b6; 0x03b6e20c; 0x74b1d29a;
    0xead54739; 0x9dd277af; 0x04db2615; 0x73dc1683; 0xe3630b12; 0x94643b84;
    0x0d6d6a3e; 0x7a6a5aa8; 0xe40ecf0b; 0x9309ff9d; 0x0a00ae27; 0x7d079eb1;
    0xf00f9344; 0x8708a3d2; 0x1e01f268; 0x6906c2fe; 0xf762575d; 0x806567cb;
    0x196c3671; 0x6e6b06e7; 0xfed41b76; 0x89d32be0; 0x10da7a5a; 0x67dd4acc;
    0xf9b9df6f; 0x8ebeeff9; 0x17b7be43; 0x60b08ed5; 0xd6d6a3e8; 0xa1d1937e;
    0x38d8c2c4; 0x4fdff252; 0xd1bb67f1; 0xa6bc5767; 0x3fb506dd; 0x48b2364b;
    0xd80d2bda; 0xaf0a1b4c; 0x36034af6; 0x41047a60; 0xdf60efc3; 0xa867df55;
    0x316e8eef; 0x4669be79; 0xcb61b38c; 0xbc66831a; 0x256fd2a0; 0x5268e236;
    0xcc0c7795; 0xbb0b4703; 0x220216b9; 0x5505262f; 0xc5ba3bbe; 0xb2bd0b28;
    0x2bb45a92; 0x5cb36a04; 0xc2d7ffa7; 0xb5d0cf31; 0x2cd99e8b; 0x5bdeae1d;
    0x9b64c2b0; 0xec63f226; 0x756aa39c; 0x026d930a; 0x9c0906a9; 0xeb0e363f;
    0x72076785; 0x05005713; 0x95bf4a82; 0xe2b87a14; 0x7bb12bae; 0x0cb61b38;
    0x92d28e9b; 0xe5d5be0d; 0x7cdcefb7; 0x0bdbdf21; 0x86d3d2d4; 0xf1d4e242;
    0x68ddb3f8; 0x1fda836e; 0x81be16cd; 0xf6b9265b; 0x6fb077e1; 0x18b74777;
    0x88085ae6; 0xff0f6a70; 0x66063bca; 0x11010b5c; 0x8f659eff; 0xf862ae69;
    0x616bffd3; 0x166ccf45; 0xa00ae278; 0xd70dd2ee; 0x4e048354; 0x3903b3c2;
    0xa7672661; 0xd06016f7; 0x4969474d; 0x3e6e77db; 0xaed16a4a; 0xd9d65adc;
    0x40df0b66; 0x37d83bf0; 0xa9bcae53; 0xdebb9ec5; 0x47b2cf7f; 0x30b5ffe9;
    0xbdbdf21c; 0xcabac28a; 0x53b39330; 0x24b4a3a6; 0xbad03605; 0xcdd70693;
    0x54de5729; 0x23d967bf; 0xb3667a2e; 0xc4614ab8; 0x5d681b02; 0x2a6f2b94;
    0xb40bbe37; 0xc30c8ea1; 0x5a05df1b; 0x2d02ef8d
  ].

Definition tab (i : Z) : Z := nth (Z.to_nat i) crc32_tab 0.

(** One iteration of the loop body:
    [crc = crc32_tab[(crc ^ *p++) & 0xFF] ^ (crc >> 8)]. *)
Definition crc_step (crc : Z) (b : byte) : Z :=
  Z.lxor (tab (Z.land (Z.lxor crc (b2z b)) 0xFF)) (Z.shiftr crc 8).

(** [while (len--) ...] over the object [p] points into.  [None] is a read
    past the end of that object. *)
Fixpoint crc32_loop (p : list byte) (len : Z) (crc : Z) : option Z :=
  if len =? 0 then Some crc
  else match p with
       | [] => None
       | b :: p' => crc32_loop p' (len - 1) (crc_step crc b)
       end.

(** [crc32(buf, len)]: [crc = ~0U], the loop, [return crc ^ ~0U]. *)
Definition crc32_mem (buf : list byte) (len : Z) : option Z :=
  match crc32_loop buf len 0xFFFFFFFF with
  | Some crc => Some (Z.lxor crc 0xFFFFFFFF)
  | None => None
  end.

(** [crc32] of a whole byte sequence. *)
Definition crc32 (bs : list byte) : Z :=
  Z.lxor (fold_left crc_step bs 0xFFFFFFFF) 0xFFFFFFFF.

(** *** The bit-serial IEEE 802.3 CRC-32, as the standard defines it

    Reflected polynomial 0xEDB88320, register initialised to 0xFFFFFFFF,
    every message byte xored into the low byte and followed by eight
    shift steps, final xor with 0xFFFFFFFF. *)

Definition ieee_poly : Z := 0xEDB88320.

Definition bit_step (c : Z) : Z :=
  if Z.testbit c 0 then Z.lxor (Z.shiftr c 1) ieee_poly else Z.shiftr c 1.

Definition bit_step8 (c : Z) : Z :=
  bit_step (bit_step (bit_step (bit_step
    (bit_step (bit_step (bit_step (bit_step c))))))).

Definition ieee_step (crc : Z) (b : byte) : Z :=
  bit_step8 (Z.lxor crc (b2z b)).

Definition ieee_crc32 (bs : list byte) : Z :=
  Z.lxor (fold_left ieee_step bs 0xFFFFFFFF) 0xFFFFFFFF.

(** The table indices, for checks that run over the whole table. *)
Definition table_indices : list Z := map Z.of_nat (seq 0 256).

(** The values of a [uint32_t]. *)
Definition u32 (c : Z) : Prop := 0 <= c < 2 ^ 32.

Definition check_string : list byte :=
  [x31; x32; x33; x34; x35; x36; x37; x38; x39].

End Crc32.

(** ** nvtegraparts: the Tegra partition table and the GPT header *)

Module NvTegraParts.

Definition MAX_NUM_PARTS : nat := 24.
Definition MAX_SIZE : nat := 4096.
Definition PT_VERSION : Z := 0x00000100.
Definition BCT_ID : Z := 2.
Definition GPT_BLOCK_SIZE : nat := 512.

(** ['B','C','T','\0'], ['G','P','T','\0'] and ["EFI PART"]. *)
Definition PT_BCT_NAME : list byte := [x42; x43; x54; x00].
Definition PT_GPT_NAME : list byte := [x47; x50; x54; x00].
Definition GPT_SIGNATURE : list byte :=
  [x45; x46; x49; x20; x50; x41; x52; x54].

(** [struct nvtegra_partinfo] (packed, 80 bytes); the [__unknown] words are
    skipped by the decoder and left out of the record. *)
Record nvtegra_partinfo : Type := {
  id : Z;
  name : list byte;
  allocation_policy : Z;
  name2 : list byte;
  fs_type : Z;
  virt_start_sector : Z;
  virt_size : Z;
  start_sector : Z;
  end_sector : Z;
  type : Z
}.

Definition PARTINFO_SIZE : nat := 80.
(** Offsets in [struct nvtegra_ptable] (packed). *)
Definition OFF_VERSION : nat := 8.
Definition OFF_TABLE_SIZE : nat := 12.
Definition OFF_NUM_PARTS : nat := 64.
Definition OFF_PARTITIONS : nat := 72.

Definition partinfo_at (buf : list byte) (o : nat) : nvtegra_partinfo :=
  {| id := le32 buf o;
     name := slice buf (o + 4) 4;
     allocation_policy := le32 buf (o + 8);
     name2 := slice buf (o + 20) 4;
     fs_type := le32 buf (o + 24);
     virt_start_sector := le32 buf (o + 40);
     virt_size := le32 buf (o + 48);
     start_sector := le32 buf (o + 56);
     end_sector := le32 buf (o + 64);
     type := le32 buf (o + 72) |}.

(** [&pt->partitions[i]] *)
Definition partition (buf : list byte) (i : nat) : nvtegra_partinfo :=
  partinfo_at buf (OFF_PARTITIONS + PARTINFO_SIZE * i).

Definition pt_version (buf : list byte) : Z := le32 buf OFF_VERSION.
Definition pt_num_parts (buf : list byte) : Z := le32 buf OFF_NUM_PARTS.
Definition pt_table_size (buf : list byte) : Z := le32 buf OFF_TABLE_SIZE.

(** What the program writes, in order: the sink of decoded records. *)
Inductive event : Type :=
| PrintHeader (num_parts table_size : Z)
| PrintPartition (n : nat) (p : nvtegra_partinfo)
| ErrInvalidId (bad_id : Z).

Inductive bct_violation : Type := BadBctId | BadBctName | BadBctStartSector.

Inductive pt_error : Type :=
| PtShortRead
| VersionMismatch (found expected : Z)
| InvalidBootConfigRecord (why : bct_violation).

(** Name test of the GPT locator record: [memcmp] over
    [sizeof(PT_GPT_NAME) - 1] bytes of both name fields. *)
Definition is_gpt_name (p : nvtegra_partinfo) : bool :=
  bytes_eqb (firstn 3 (name p)) (firstn 3 PT_GPT_NAME)
  && bytes_eqb (firstn 3 (name2 p)) (firstn 3 PT_GPT_NAME).

(** Name test of record 0: [memcmp] over [sizeof(PT_BCT_NAME)] bytes. *)
Definition is_bct_name (p : nvtegra_partinfo) : bool :=
  bytes_eqb (name p) PT_BCT_NAME && bytes_eqb (name2 p) PT_BCT_NAME.

(** The loop [for (i = 1; (i < MAX_NUM_PARTS) && (i < pt->num_parts); i++)],
    run over the indices [idxs] that satisfy [i < MAX_NUM_PARTS]. *)
Fixpoint scan_partitions (buf : list byte) (num_parts : Z) (idxs : list nat)
    (gpt : option (nat * nvtegra_partinfo))
  : list event * option (nat * nvtegra_partinfo) :=
  match idxs with
  | [] => ([], gpt)
  | i :: rest =>
      if Z.of_nat i <? num_parts then
        let p := partition buf i in
        if 128 <=? id p then ([ErrInvalidId (id p)], gpt)
        else
          let gpt' := if is_gpt_name p then Some (i, p) else gpt in
          let '(evs, g) := scan_partitions buf num_parts rest gpt' in
          (PrintPartition i p :: evs, g)
      else ([], gpt)
  end.

(** [buf] after [fread(buf, 1, MAX_SIZE, fp)] on a file holding [file]. *)
Definition pt_buffer (file : list byte) : list byte := firstn MAX_SIZE file.

(** [main] of nvtegraparts.c (the revision that also reads the GPT) from
    [fread] to the end of the record loop.  The first component is the
    output written so far, the second the failure ([ret = -1]) or the GPT
    locator record, if any.  The earlier revision of the file has the same
    checks (its [memcmp] length for record 0, [sizeof("BCT\0") - 1], is 4
    as well) and no GPT locator. *)
Definition parse_partition_table (file : list byte)
  : list event * (pt_error + option (nat * nvtegra_partinfo)) :=
  let buf := pt_buffer file in
  if negb (length buf =? MAX_SIZE)%nat then ([], inl PtShortRead)
  else if negb (pt_version buf =? PT_VERSION)
  then ([], inl (VersionMismatch (pt_version buf) PT_VERSION))
  else
    let p := partition buf 0 in
    let out := [PrintHeader (pt_num_parts buf) (pt_table_size buf);
                PrintPartition 0 p] in
    if negb (id p =? BCT_ID) then (out, inl (InvalidBootConfigRecord BadBctId))
    else if negb (is_bct_name p)
    then (out, inl (InvalidBootConfigRecord BadBctName))
    else if negb (start_sector p =? 0)
    then (out, inl (InvalidBootConfigRecord BadBctStartSector))
    else
      let '(evs, gpt) :=
        scan_partitions buf (pt_num_parts buf)
                        (seq 1 (MAX_NUM_PARTS - 1)) None in
      (out ++ evs, inr gpt).

(** The records handed to the sink. *)
Fixpoint printed_records (evs : list event) : list (nat * nvtegra_partinfo) :=
  match evs with
  | [] => []
  | PrintPartition n p :: t => (n, p) :: printed_records t
  | _ :: t => printed_records t
  end.

(** Record 0 as the validation wants it. *)
Definition bct_ok (p : nvtegra_partinfo) : Prop :=
  id p = BCT_ID /\ name p = PT_BCT_NAME /\ name2 p = PT_BCT_NAME
  /\ start_sector p = 0.

(** The three tests on record 0, taken together. *)
Definition bct_checks (p : nvtegra_partinfo) : bool :=
  (id p =? BCT_ID) && is_bct_name p && (start_sector p =? 0).

(** The first record index whose id is out of range (24 if there is
    none), and the index at which the record loop stops: the least of the
    declared count, the maximum and that index. *)
Definition invalid_id (buf : list byte) (i : nat) : bool :=
  128 <=? id (partition buf i).

Definition first_invalid (buf : list byte) (a n : nat) : Z :=
  match find (invalid_id buf) (seq a n) with
  | Some i => Z.of_nat i
  | None => Z.of_nat (a + n)
  end.

(** Where the loop over indices [a .. a+n-1] stops. *)
Definition loop_stop (buf : list byte) (num_parts : Z) (a n : nat) : Z :=
  Z.min num_parts (Z.min (Z.of_nat (a + n)) (first_invalid buf a n)).

Definition stop_index (buf : list byte) : Z :=
  Z.min (pt_num_parts buf)
        (Z.min (Z.of_nat MAX_NUM_PARTS) (first_invalid buf 0 MAX_NUM_PARTS)).

(** Records [a .. a+n-1] of the table as the sink receives them. *)
Definition records (buf : list byte) (a n : nat)
  : list (nat * nvtegra_partinfo) :=
  map (fun i => (i, partition buf i)) (seq a n).

(** *** Partition-table images used as concrete inputs *)

(** A 72-byte header with the given version and partition count. *)
Definition pt_header (version num_parts : Z) : list byte :=
  repeat x00 8 ++ le32_bytes version ++ repeat x00 52
  ++ le32_bytes num_parts ++ repeat x00 4.

(** An 80-byte record with the given id, name (both copies) and start
    sector. *)
Definition pt_record (rid : Z) (nm : list byte) (start : Z) : list byte :=
  le32_bytes rid ++ nm ++ repeat x00 12 ++ nm ++ repeat x00 32
  ++ le32_bytes start ++ repeat x00 20.

(** Version bytes 00 00 01 00, i.e. the little-endian word 0x00010000. *)
Definition image_version_10000 : list byte :=
  pad 4096 (pt_header 0x00010000 1 ++ pt_record 2 PT_BCT_NAME 0).

(** Record 0 named "BCTX" in both name fields. *)
Definition image_bctx : list byte :=
  pad 4096 (pt_header 0x100 1 ++ pt_record 2 [x42; x43; x54; x58] 0).

(** A declared count of 0 in front of a well-formed record 0. *)
Definition image_no_parts : list byte :=
  pad 4096 (pt_header 0x100 0 ++ pt_record 2 PT_BCT_NAME 0).

(** Four declared records: BCT, a "GPT " record with id 5, a record with
    id 200, and one more. *)
Definition image_truncated : list byte :=
  pad 4096 (pt_header 0x100 4 ++ pt_record 2 PT_BCT_NAME 0
            ++ pt_record 5 [x47; x50; x54; x20] 7
            ++ pt_record 200 [x41; x41; x41; x00] 9
            ++ pt_record 6 [x42; x42; x42; x00] 11).

(** Three declared records, all ids in range. *)
Definition image_three : list byte :=
  pad 4096 (pt_header 0x100 3 ++ pt_record 2 PT_BCT_NAME 0
            ++ pt_record 5 [x47; x50; x54; x20] 7
            ++ pt_record 6 [x42; x42; x42; x00] 11).

(** *** GPT header block *)

Inductive gpt_error : Type :=
| GptSeekFailed
| BadSignature
| HeaderCrcMismatch (crc_self crc : Z)
| GptReadOutOfBlock.

(** Offsets in [struct gpt_header] (packed). *)
Definition OFF_GPT_SIZE : nat := 12.
Definition OFF_GPT_CRC_SELF : nat := 16.

Definition gpt_size_field (blk : list byte) : Z := le32 blk OFF_GPT_SIZE.
Definition gpt_crc_self (blk : list byte) : Z := le32 blk OFF_GPT_CRC_SELF.

(** [gpt_h->crc_self = 0] *)
Definition zero_crc_self (blk : list byte) : list byte :=
  poke (poke (poke (poke blk 16 x00) 17 x00) 18 x00) 19 x00.

(** Header validation: the signature [memcmp], then the CRC over
    [le32toh(gpt_h->size)] bytes of [gpt_block] with [crc_self] zeroed.
    Success returns the block as the program keeps it. *)
Definition gpt_header_check (gpt_block : list byte)
  : gpt_error + list byte :=
  if negb (memcmp0 gpt_block 0 GPT_SIGNATURE) then inl BadSignature
  else
    let crc_self := gpt_crc_self gpt_block in
    let blk := zero_crc_self gpt_block in
    match Crc32.crc32_mem blk (gpt_size_field blk) with
    | None => inl GptReadOutOfBlock
    | Some crc =>
        if negb (crc =? crc_self) then inl (HeaderCrcMismatch crc_self crc)
        else inr blk
    end.

(** [lseek64(fd, -GPT_BLOCK_SIZE, SEEK_END)] and the 512-byte [read] on a
    device holding [dev], followed by the header validation. *)
Definition locate_gpt_header (dev : list byte) : gpt_error + list byte :=
  if (length dev <? GPT_BLOCK_SIZE)%nat then inl GptSeekFailed
  else gpt_header_check (skipn (length dev - GPT_BLOCK_SIZE) dev).

(** *** GPT header blocks used as concrete inputs *)

Definition store_le32 (buf : list byte) (o : nat) (v : Z) : list byte :=
  poke (poke (poke (poke buf o (z2b v)) (o + 1) (z2b (Z.shiftr v 8)))
             (o + 2) (z2b (Z.shiftr v 16)))
       (o + 3) (z2b (Z.shiftr v 24)).

(** Signature, revision 1.0, the given header size, everything else 0. *)
Definition gpt_block_unsigned (size : Z) : list byte :=
  pad 512 (GPT_SIGNATURE ++ le32_bytes 0x00010000 ++ le32_bytes size).

(** The same block with its CRC field filled in over [size] bytes. *)
Definition gpt_block_signed (size : nat) : list byte :=
  let blk := gpt_block_unsigned (Z.of_nat size) in
  store_le32 blk OFF_GPT_CRC_SELF (Crc32.crc32 (firstn size blk)).

(** A well-formed header block with the usual header size of 92 bytes. *)
Definition gpt_block_92 : list byte :=
  Eval vm_compute in gpt_block_signed 92.

(** The same well-formed header with four chosen bytes behind the 92-byte
    window: they leave its CRC alone and make the CRC over 96 bytes come
    out the same once the size field says 96. *)
Definition gpt_block_92_tail : list byte :=
  Eval vm_compute in
    poke (poke (poke (poke gpt_block_92 92 x42) 93 xc8) 94 x15) 95 x05.

(** A header block that declares a header size of 513 bytes. *)
Definition gpt_block_513 : list byte :=
  Eval vm_compute in gpt_block_unsigned 513.

(** *** UTF-16 name decoding ([c16_to_string]) *)

(** How a call of [c16_to_string] ends. *)
Inductive c16_result : Type :=
| StateRejected
| ReadPastArray
| Stored (str : list byte).

Section C16.
(** The C library's conversion state, and the two library calls made on
    it.  [mbrlen(NULL, 0, ps)] leaves a state, or has no defined result
    ([None]: the library may abort) when [ps] does not hold a valid
    conversion state.  [c16rtomb] gives the bytes produced for one code
    unit, [None] for the error return [(size_t)-1]. *)
Variable mbstate : Type.
Variable mbrlen_null : mbstate -> option mbstate.
Variable c16rtomb : mbstate -> Z -> option (list byte) * mbstate.
Variable MB_CUR_MAX : nat.
(** What the automatic variable [mbs] holds on entry: the function does
    not initialise it before it hands it to [mbrlen]. *)
Variable mbs_auto : mbstate.

(** [len - 1] in [size_t] arithmetic (32 bits on the target). *)
Definition out_limit (len : Z) : Z := (len - 1) mod 2 ^ 32.

(** The [while (buf)] loop.  [buf] is what is left of the array the
    pointer runs over, [str] the bytes stored so far ([pos] is their
    number), [None] a read of [*buf] past the end of the array. *)
Fixpoint c16_loop (buf : list Z) (mbs : mbstate) (str : list byte)
    (lim : Z) : option (list byte) :=
  match buf with
  | [] => None
  | c :: buf' =>
      let '(r, mbs') := c16rtomb mbs c in
      match r with
      | None => Some str
      | Some mb =>
          if ((length mb =? 0) || (MB_CUR_MAX <? length mb))%nat
          then Some str
          else
            let room := Z.to_nat (lim - Z.of_nat (length str)) in
            let str' := str ++ firstn room mb in
            if lim <=? Z.of_nat (length str') then Some str'
            else c16_loop buf' mbs' str' lim
      end
  end.

(** [c16_to_string(buf, str, len)]: [mbrlen(NULL, 0, &mbs)] on the
    uninitialised [mbs], the loop, and the terminating
    [str[pos] = '\0'].  [Stored] carries the bytes left in [str]. *)
Definition c16_to_string (buf : list Z) (len : Z) : c16_result :=
  match mbrlen_null mbs_auto with
  | None => StateRejected
  | Some mbs =>
      match c16_loop buf mbs [] (out_limit len) with
      | Some str => Stored (str ++ [x00])
      | None => ReadPastArray
      end
  end.

(** The bytes [c16rtomb] produces for the code units taken in order from
    state [mbs], up to the first unit whose conversion fails or has no or
    more than [MB_CUR_MAX] bytes: the conversion of the units, without the
    bookkeeping of the loop. *)
Fixpoint conv_stream (units : list Z) (mbs : mbstate) : list byte :=
  match units with
  | [] => []
  | c :: t =>
      let '(r, mbs') := c16rtomb mbs c in
      match r with
      | None => []
      | Some mb =>
          if ((length mb =? 0) || (MB_CUR_MAX <? length mb))%nat then []
          else mb ++ conv_stream t mbs'
      end
  end.
End C16.

(** The text a [char] array holds when read as a C string ([%s]). *)
Fixpoint cstring (s : list byte) : list byte :=
  match s with
  | [] => []
  | b :: t => if Byte.eqb b x00 then [] else b :: cstring t
  end.

(** The code units in front of the first null unit. *)
Fixpoint before_null (units : list Z) : list Z :=
  match units with
  | [] => []
  | c :: t => if c =? 0 then [] else c :: before_null t
  end.

Definition GPT_NAME_UNITS : nat := 36.
Definition OFF_ENTRY_NAME : nat := 56.

(** [e->name]: the 36 code units of a [struct gpt_entry]. *)
Definition gpt_entry_name (entry : list byte) : list Z :=
  map (fun k => le16 entry (OFF_ENTRY_NAME + 2 * k)) (seq 0 GPT_NAME_UNITS).

(** The name [gpt_partition_print] shows: [char name[20]] filled by
    [c16_to_string((char16_t * )e->name, name, sizeof(name))] and printed
    with [%s]; [None] when the call does not end with a stored string. *)
Definition gpt_print_name {mbstate : Type}
    (mbrlen_null : mbstate -> option mbstate)
    (c16rtomb : mbstate -> Z -> option (list byte) * mbstate)
    (MB_CUR_MAX : nat) (mbs_auto : mbstate) (units : list Z)
  : option (list byte) :=
  match c16_to_string mbstate mbrlen_null c16rtomb MB_CUR_MAX mbs_auto
          units 20 with
  | Stored str => Some (cstring str)
  | _ => None
  end.

(** A small library used for concrete inputs, in the manner of the "C"
    locale (the program never calls [setlocale]).  A conversion state is
    either the initial one ([true]) or not; [mbrlen(NULL, 0, ps)] is
    defined on the initial state only; ASCII code units map to
    themselves, the null unit to a null byte, everything else is an
    encoding error. *)
Definition mbrlen_null_ascii (st : bool) : option bool :=
  if st then Some true else None.

Definition c16rtomb_ascii (st : bool) (c : Z) : option (list byte) * bool :=
  if (0 <=? c) && (c <? 128) then (Some [z2b c], st) else (None, st).

(** Two 36-unit names, "ab" followed by a null unit and then different
    units, and a 36-unit name without a null unit. *)
Definition name_ab_c : list Z := [0x61; 0x62; 0] ++ repeat 0x63 33.
Definition name_ab_0 : list Z := [0x61; 0x62; 0] ++ repeat 0 33.
Definition name_36_A : list Z := repeat 0x41 36.

(** *** The GPT locator *)

(** The last of the given records whose two name fields both start with
    "GPT", or [init] when there is none: what the assignment [gpt = p] in
    the record loop leaves behind. *)
Definition last_gpt_record (recs : list (nat * nvtegra_partinfo))
    (init : option (nat * nvtegra_partinfo))
  : option (nat * nvtegra_partinfo) :=
  fold_left (fun acc r => if is_gpt_name (snd r) then Some r else acc)
            recs init.

(** *** GPT entries: [le_uuid_dec], [gpt_partition_print] *)

(** [bswap_16] and [bswap_32] of [<byteswap.h>]. *)
Definition bswap_16 (x : Z) : Z :=
  Z.lor (Z.shiftl (Z.land x 0xff) 8) (Z.land (Z.shiftr x 8) 0xff).

Definition bswap_32 (x : Z) : Z :=
  Z.lor (Z.lor (Z.shiftl (Z.land x 0xff) 24)
               (Z.shiftl (Z.land (Z.shiftr x 8) 0xff) 16))
        (Z.lor (Z.shiftl (Z.land (Z.shiftr x 16) 0xff) 8)
               (Z.land (Z.shiftr x 24) 0xff)).

(** The two bytes of a 16-bit word as the host stores them. *)
Definition le16_bytes (v : Z) : list byte := [z2b v; z2b (Z.shiftr v 8)].

Definition le64 (buf : list byte) (o : nat) : Z :=
  Z.lor (le32 buf o) (Z.shiftl (le32 buf (o + 4)) 32).

(** [uuid_t] (packed, 16 bytes). *)
Record uuid_t : Type := {
  time_low : Z;
  time_mid : Z;
  time_hi_and_version : Z;
  clock_seq_hi_and_reserved : Z;
  clock_seq_low : Z;
  node : list Z
}.

(** The [uuid_t] that 16 bytes of memory hold. *)
Definition uuid_of_bytes (u : list byte) : uuid_t :=
  {| time_low := le32 u 0;
     time_mid := le16 u 4;
     time_hi_and_version := le16 u 6;
     clock_seq_hi_and_reserved := byte_at u 8;
     clock_seq_low := byte_at u 9;
     node := map (byte_at u) (seq 10 6) |}.

(** [le_uuid_dec(buf, uuid)] with [buf] pointing at offset [o] of [mem]:
    the 16 bytes it leaves in [*uuid].  The 32-bit word 0 and the 16-bit
    words 2 and 3 are byte-swapped, the 64-bit word 1 is copied. *)
Definition le_uuid_dec (mem : list byte) (o : nat) : list byte :=
  le32_bytes (bswap_32 (le32 mem o))
  ++ le16_bytes (bswap_16 (le16 mem (o + 4)))
  ++ le16_bytes (bswap_16 (le16 mem (o + 6)))
  ++ map (fun k => nth (o + k) mem x00) (seq 8 8).

(** [UUID_ARGS(u)]: the eleven numbers printed with [UUID_FMT]. *)
Definition UUID_ARGS (u : uuid_t) : list Z :=
  [time_low u; time_mid u; time_hi_and_version u;
   clock_seq_hi_and_reserved u; clock_seq_low u] ++ node u.

(** Offsets in [struct gpt_entry] (packed, 128 bytes). *)
Definition GPT_ENTRY_SIZE : nat := 128.
Definition OFF_ENTRY_TYPE : nat := 0.
Definition OFF_ENTRY_UUID : nat := 16.
Definition OFF_ENTRY_LBA_START : nat := 32.
Definition OFF_ENTRY_LBA_END : nat := 40.
Definition OFF_ENTRY_ATTR : nat := 48.

(** The arguments of the [printf] in [gpt_partition_print], but for the
    name: [UUID_ARGS(type)], [UUID_ARGS(uuid)], [attr], [start], [size]. *)
Record gpt_line : Type := {
  line_type : list Z;
  line_uuid : list Z;
  line_attr : Z;
  line_start : Z;
  line_size : Z
}.

(** [gpt_partition_print(n, e)] without the name: [size] is computed in
    [uint64_t]. *)
Definition gpt_partition_print (e : list byte) : gpt_line :=
  let start := le64 e OFF_ENTRY_LBA_START in
  let size := (le64 e OFF_ENTRY_LBA_END - start + 1) mod 2 ^ 64 in
  {| line_type := UUID_ARGS (uuid_of_bytes (le_uuid_dec e OFF_ENTRY_TYPE));
     line_uuid := UUID_ARGS (uuid_of_bytes (le_uuid_dec e OFF_ENTRY_UUID));
     line_attr := le64 e OFF_ENTRY_ATTR;
     line_start := start;
     line_size := size |}.

(** *** The GPT table: its size and the entries read from it *)

(** [gpt_size], [blocks] and [count] as [main] computes them from the
    header fields and the sector size, in 32-bit [unsigned int] and
    [size_t] arithmetic.  [sector_size] is the [int] that [BLKSSZGET]
    delivered, or 512; it is taken to be positive. *)
Definition gpt_size (num_entries entry_size : Z) : Z :=
  (num_entries * entry_size) mod 2 ^ 32.

Definition gpt_blocks (gpt_size sector_size : Z) : Z :=
  (gpt_size / sector_size
   + (if gpt_size mod sector_size =? 0 then 0 else 1)) mod 2 ^ 32.

Definition gpt_count (num_entries entry_size sector_size : Z) : Z :=
  (gpt_blocks (gpt_size num_entries entry_size) sector_size * sector_size)
  mod 2 ^ 32.

(** [gpt_buf + i * le32toh(gpt_h->entry_size)] and the 128 bytes of the
    [struct gpt_entry] read there, out of a table buffer of [count] bytes:
    [None] when they do not lie inside the buffer. *)
Definition gpt_entry_at (gpt_buf : list byte) (i entry_size : Z)
  : option (list byte) :=
  let o := (i * entry_size) mod 2 ^ 32 in
  if o + Z.of_nat GPT_ENTRY_SIZE <=? Z.of_nat (length gpt_buf)
  then Some (slice gpt_buf (Z.to_nat o) GPT_ENTRY_SIZE)
  else None.

(** *** [hexdump] *)

(** What [hexdump] writes, piece by piece: the offset at the start of a
    row ([%08x]), the gap before each group of eight (a blank), a byte in
    hex ([ %02x]), and the text column of a full row between two bars. *)
Inductive hex_piece : Type :=
| HexOffset (i : nat)
| HexGap
| HexByte (b : byte)
| HexTextOpen
| HexChar (c : byte)
| HexTextClose.

Section Hexdump.
(** [isprint] of the C library, on byte values. *)
Variable isprint : byte -> bool.

(** The character the text column shows for a byte ('.' is [x2e]). *)
Definition text_char (b : byte) : byte := if isprint b then b else x2e.

(** The body of the loop for the indices [idxs], with [j] the first index
    the text column has not shown yet. *)
Fixpoint hexdump_loop (buf : list byte) (idxs : list nat) (j : nat)
  : list hex_piece :=
  match idxs with
  | [] => []
  | i :: rest =>
      (if Z.land (Z.of_nat i) 0x0F =? 0 then [HexOffset i] else [])
      ++ (if Z.land (Z.of_nat i) 0x07 =? 0 then [HexGap] else [])
      ++ HexByte (nth i buf x00)
      :: (if Z.land (Z.of_nat i) 0x0F =? 0x0F
          then HexTextOpen
               :: map (fun k => HexChar (text_char (nth k buf x00)))
                      (seq j (i + 1 - j))
               ++ HexTextClose :: hexdump_loop buf rest (i + 1)
          else hexdump_loop buf rest j)
  end.

(** [hexdump(buf, len)]; [None] when [len] exceeds the object [buf]
    points into. *)
Definition hexdump (buf : list byte) (len : nat) : option (list hex_piece) :=
  if (len <=? length buf)%nat then Some (hexdump_loop buf (seq 0 len) 0)
  else None.
End Hexdump.

(** The bytes of the hex columns and the characters of the text columns,
    in the order written. *)
Fixpoint hex_bytes (out : list hex_piece) : list byte :=
  match out with
  | [] => []
  | HexByte b :: t => b :: hex_bytes t
  | _ :: t => hex_bytes t
  end.

Fixpoint text_chars (out : list hex_piece) : list byte :=
  match out with
  | [] => []
  | HexChar c :: t => c :: text_chars t
  | _ :: t => text_chars t
  end.

(** [isprint] in the "C" locale. *)
Definition isprint_c (b : byte) : bool :=
  (0x20 <=? b2z b) && (b2z b <=? 0x7e).

End NvTegraParts.

(** ** trdx-configblock: the Toradex configuration block *)

Module ConfigBlock.

Definition TRDX_CFG_BLOCK_MAX_SIZE : Z := 512.
Definition TAG_VALID : Z := 0xcf01.
Definition TAG_MAC : Z := 0x0000.
Definition TAG_HW : Z := 0x0008.
Definition TAG_FLAG_VALID : Z := 0x1.
(** Width of [size_t] on the 32-bit ARM target. *)
Definition SIZE_BITS : Z := 32.

(** [struct toradex_tag] (packed, 4 bytes): [len] is the low 14 bits of the
    first little-endian half-word, [flags] its top 2 bits, [id] the second
    half-word. *)
Record toradex_tag : Type := { len : Z; flags : Z; id : Z }.

Record toradex_hw : Type := {
  ver_major : Z; ver_minor : Z; ver_assembly : Z; prodid : Z
}.

(** [struct toradex_eth_addr] (packed, 6 bytes): two 24-bit fields. *)
Record toradex_eth_addr : Type := { oui : Z; nic : Z }.

(** [n] bytes of the block at byte offset [off]; [None] when the range
    leaves the block. *)
Definition read_bytes (cb : list byte) (off : Z) (n : nat)
  : option (list byte) :=
  if (0 <=? off) && (off + Z.of_nat n <=? Z.of_nat (length cb))
  then Some (slice cb (Z.to_nat off) n)
  else None.

(** [(struct toradex_tag * )(config_block + off)] and the reads of its
    fields. *)
Definition tag_at (cb : list byte) (off : Z) : option toradex_tag :=
  match read_bytes cb off 4 with
  | Some bs =>
      Some {| len := Z.land (le16 bs 0) 0x3fff;
              flags := Z.shiftr (le16 bs 0) 14;
              id := le16 bs 2 |}
  | None => None
  end.

Definition hw_of_bytes (bs : list byte) : toradex_hw :=
  {| ver_major := le16 bs 0; ver_minor := le16 bs 2;
     ver_assembly := le16 bs 4; prodid := le16 bs 6 |}.

Definition le24 (bs : list byte) (o : nat) : Z :=
  Z.lor (Z.lor (byte_at bs o) (Z.shiftl (byte_at bs (o + 1)) 8))
        (Z.shiftl (byte_at bs (o + 2)) 16).

Definition eth_of_bytes (bs : list byte) : toradex_eth_addr :=
  {| oui := le24 bs 0; nic := le24 bs 3 |}.

(** [ntohl] on the little-endian host. *)
Definition ntohl (x : Z) : Z :=
  Z.lor (Z.lor (Z.shiftl (Z.land x 0xff) 24)
               (Z.shiftl (Z.land (Z.shiftr x 8) 0xff) 16))
        (Z.lor (Z.shiftl (Z.land (Z.shiftr x 16) 0xff) 8)
               (Z.land (Z.shiftr x 24) 0xff)).

(** The locals the tag walk fills, and the ids it warned about.  Of the
    [printf]s that format them afterwards only the table lookup for the
    module name is modelled ([module_entry], with [ret_of]). *)
Record decoded : Type := {
  hw : toradex_hw;
  eth_addr : toradex_eth_addr;
  serial : Z;
  unknown_tags : list Z
}.

(** After the two [memset]s, with [serial = 0]. *)
Definition decoded0 : decoded :=
  {| hw := {| ver_major := 0; ver_minor := 0; ver_assembly := 0; prodid := 0 |};
     eth_addr := {| oui := 0; nic := 0 |};
     serial := 0;
     unknown_tags := [] |}.

Inductive outcome : Type :=
| OpenFailed
| SeekFailed
| AllocFailed
| IoError (len : Z)
| NoConfigBlock
| ReadOutOfBlock (off : Z)
| FuelExhausted
| Decoded (d : decoded).

(** [toradex_modules]: 32 slots; the designated indices 0..17 and 20..31
    hold names, 18 and 19 are left as null pointers. *)
Definition toradex_modules : list (option String.string) :=
  [ Some "invalid"%string;
    Some "Colibri PXA270 312MHz"%string;
    Some "Colibri PXA270 520MHz"%string;
    Some "Colibri PXA320 806MHz"%string;
    Some "Colibri PXA300 208MHz"%string;
    Some "Colibri PXA310 624MHz"%string;
    Some "Colibri PXA320 806MHz IT"%string;
    Some "Colibri PXA300 208MHz XT"%string;
    Some "Colibri PXA270 312MHz"%string;
    Some "Colibri PXA270 520MHz"%string;
    Some "Colibri VF50 128MB"%string;
    Some "Colibri VF61 256MB"%string;
    Some "Colibri VF61 256MB IT"%string;
    Some "Colibri VF50 128MB IT"%string;
    Some "Colibri iMX6 Solo 256MB"%string;
    Some "Colibri iMX6 DualLite 512MB"%string;
    Some "Colibri iMX6 Solo 256MB IT"%string;
    Some "Colibri iMX6 DualLite 512MB IT"%string;
    None;
    None;
    Some "Colibri T20 256MB"%string;
    Some "Colibri T20 512MB"%string;
    Some "Colibri T20 512MB IT"%string;
    Some "Colibri T30 1GB"%string;
    Some "Colibri T20 256MB IT"%string;
    Some "Apalis T30 2GB"%string;
    Some "Apalis T30 1GB"%string;
    Some "Apalis iMX6 Quad 1GB"%string;
    Some "Apalis iMX6 Quad 2GB IT"%string;
    Some "Apalis iMX6 Dual 512MB"%string;
    Some "Colibri T30 1GB IT"%string;
    Some "Apalis T30 1GB IT"%string ].

(** [toradex_modules[hw.prodid]] as the first [printf] after the tag walk
    reads it, without a bounds check: [None] is a read outside the table;
    [Some None] is one of the two null pointers, which [printf] is then
    handed for [%s]. *)
Definition module_entry (prodid : Z) : option (option String.string) :=
  if prodid <? 0 then None else nth_error toradex_modules (Z.to_nat prodid).

(** The value [read_config_block] returns, where it returns.  After a
    completed tag walk the result is printed first, which indexes
    [toradex_modules] with the decoded product id: there is a return value
    only when that index lies inside the table. *)
Definition ret_of (o : outcome) : option Z :=
  match o with
  | OpenFailed | SeekFailed | AllocFailed | IoError _ => Some (-1)
  | NoConfigBlock => Some 0
  | Decoded d =>
      match module_entry (prodid (hw d)) with
      | Some _ => Some 0
      | None => None
      end
  | ReadOutOfBlock _ | FuelExhausted => None
  end.

(** The [while (true)] tag walk.  Every iteration that does not stop
    advances [tag_off] by at least 4, so 128 iterations exhaust a 512-byte
    block; [fuel] bounds the iterations.  The cursor stays a multiple of
    4, so a tag header lies wholly inside or wholly outside a 512-byte
    block. *)
Fixpoint tag_walk (fuel : nat) (cb : list byte) (tag_off : Z) (d : decoded)
  : outcome :=
  match fuel with
  | O => FuelExhausted
  | S fuel' =>
      match tag_at cb tag_off with
      | None => ReadOutOfBlock tag_off
      | Some tag =>
          if negb (flags tag =? TAG_FLAG_VALID) then Decoded d
          else
            let tag_off := tag_off + 4 in
            let next := tag_off + len tag * 4 in
            if id tag =? TAG_MAC then
              match read_bytes cb tag_off 6 with
              | None => ReadOutOfBlock tag_off
              | Some bs =>
                  let e := eth_of_bytes bs in
                  tag_walk fuel' cb next
                    {| hw := hw d; eth_addr := e;
                       serial := Z.shiftr (ntohl (nic e)) 8;
                       unknown_tags := unknown_tags d |}
              end
            else if id tag =? TAG_HW then
              match read_bytes cb tag_off 8 with
              | None => ReadOutOfBlock tag_off
              | Some bs =>
                  tag_walk fuel' cb next
                    {| hw := hw_of_bytes bs; eth_addr := eth_addr d;
                       serial := serial d;
                       unknown_tags := unknown_tags d |}
              end
            else
              tag_walk fuel' cb next
                {| hw := hw d; eth_addr := eth_addr d; serial := serial d;
                   unknown_tags := unknown_tags d ++ [id tag] |}
      end
  end.

(** The sentinel test and the tag walk over the block in memory. *)
Definition decode_block (cb : list byte) : outcome :=
  match tag_at cb 0 with
  | None => ReadOutOfBlock 0
  | Some tag =>
      if negb (flags tag =? TAG_FLAG_VALID) && negb (id tag =? TAG_VALID)
      then NoConfigBlock
      else tag_walk 128 cb 4 decoded0
  end.

(** What the system calls of one run return. *)
Inductive read_result : Type :=
| ReadFailed
| ReadBytes (data : list byte).

Record syscalls : Type := {
  open_ok : bool;
  lseek_pos : option Z;
  (** the fresh, uninitialised 512-byte block [malloc] returns *)
  malloc_block : option (list byte);
  read_res : read_result
}.

(** Return value of [read] as an [ssize_t]. *)
Definition read_ret (r : read_result) : Z :=
  match r with
  | ReadFailed => -1
  | ReadBytes data => Z.of_nat (length data)
  end.

(** The block in memory after the [read]: what was read, followed by what
    the allocation held. *)
Definition after_read (blk : list byte) (r : read_result) : list byte :=
  match r with
  | ReadFailed => blk
  | ReadBytes data => data ++ skipn (length data) blk
  end.

(** [read_config_block(devfile, skip)]. *)
Definition read_config_block (sys : syscalls) : outcome :=
  if negb (open_ok sys) then OpenFailed
  else match lseek_pos sys with
  | None => SeekFailed
  | Some pos =>
      match malloc_block sys with
      | None => AllocFailed
      | Some blk =>
          let read_size := TRDX_CFG_BLOCK_MAX_SIZE in
          (* [len] is a [size_t]: the [ssize_t] result wraps *)
          let len := read_ret (read_res sys) mod 2 ^ SIZE_BITS in
          if len <? read_size then IoError len
          else decode_block (after_read blk (read_res sys))
      end
  end.

(** A device read that delivered the whole 512-byte block [cb]. *)
Definition full_read (cb : list byte) : syscalls :=
  {| open_ok := true; lseek_pos := Some 0;
     malloc_block := Some (repeat x00 512);
     read_res := ReadBytes cb |}.

(** *** Blocks used as concrete inputs *)

(** A tag header: [len] in the low 14 bits, [flags] in the top 2 bits of
    the first half-word, then the id. *)
Definition tag_bytes (tlen tflags tid : Z) : list byte :=
  [z2b tlen; z2b (Z.lor (Z.shiftr tlen 8) (Z.shiftl tflags 6));
   z2b tid; z2b (Z.shiftr tid 8)].

(** Hardware tag with its 8-byte payload: V1.1C, product id 27. *)
Definition hw_tag : list byte :=
  tag_bytes 2 1 TAG_HW ++ [x01; x00; x01; x00; x02; x00; x1b; x00].

Definition hw_27 : toradex_hw :=
  {| ver_major := 1; ver_minor := 1; ver_assembly := 2; prodid := 27 |}.

(** First tag flagged valid but with id 0 instead of 0xcf01. *)
Definition block_wrong_id : list byte :=
  pad 512 (tag_bytes 0 1 0 ++ hw_tag).

(** First tag with id 0xcf01 but flags 0. *)
Definition block_wrong_flags : list byte :=
  pad 512 (tag_bytes 0 0 TAG_VALID ++ hw_tag).

(** A well-formed block: sentinel, then the hardware tag. *)
Definition block_good : list byte :=
  pad 512 (tag_bytes 0 1 TAG_VALID ++ hw_tag).

(** Sentinel, then a valid tag of unknown id whose length of 126 words
    moves the cursor to 4 + 4 + 126 * 4 = 512. *)
Definition block_cursor_512 : list byte :=
  pad 512 (tag_bytes 0 1 TAG_VALID ++ tag_bytes 126 1 0x1234).

(** Sentinel, a valid tag of 125 words that moves the cursor to 508, and
    a valid MAC tag header in the last four bytes of the block. *)
Definition block_mac_at_508 : list byte :=
  pad 508 (tag_bytes 0 1 TAG_VALID ++ tag_bytes 125 1 0x1234)
  ++ tag_bytes 0 1 TAG_MAC.

(** A run whose [read] fails while the fresh allocation happens to hold a
    well-formed block. *)
Definition failed_read : syscalls :=
  {| open_ok := true; lseek_pos := Some 0;
     malloc_block := Some block_good;
     read_res := ReadFailed |}.

(** A run whose [read] delivers only the first 100 bytes. *)
Definition short_read : syscalls :=
  {| open_ok := true; lseek_pos := Some 0;
     malloc_block := Some (repeat x00 512);
     read_res := ReadBytes (firstn 100 block_good) |}.

(** *** What the result lines show *)

(** The six octets of the [MAC:] line, in the order they are printed:
    [(uint8_t)((eth_addr.oui & 0x0000ff) >> 0)], ... *)
Definition mac_octets (e : toradex_eth_addr) : list Z :=
  [ Z.shiftr (Z.land (oui e) 0x0000ff) 0 mod 256;
    Z.shiftr (Z.land (oui e) 0x00ff00) 8 mod 256;
    Z.shiftr (Z.land (oui e) 0xff0000) 16 mod 256;
    Z.shiftr (Z.land (nic e) 0x0000ff) 0 mod 256;
    Z.shiftr (Z.land (nic e) 0x00ff00) 8 mod 256;
    Z.shiftr (Z.land (nic e) 0xff0000) 16 mod 256 ].

(** [serial = ntohl(eth_addr.nic) >> 8] *)
Definition serial_of (e : toradex_eth_addr) : Z :=
  Z.shiftr (ntohl (nic e)) 8.

(** *** Device files and [main] *)

Definition DEFAULT_ARG_PART_OFF : Z := 0x00000c00.
Definition DEFAULT_SECTOR_SIZE : Z := 4096.
Definition DEFAULT_EMMC_BOOT_OFF : Z := -512.

(** The system calls of one [read_config_block(devfile, skip)] on a device
    file holding the bytes [dev] ([None]: the file cannot be opened), with
    [blk] what the fresh allocation holds.  [lseek64] seeks from the end
    for a negative [skip] and fails when that lies before the start of the
    device; [read] delivers what the device holds from the position on, up
    to 512 bytes.  Offsets are taken to fit [off_t]. *)
Definition syscalls_on (dev : option (list byte)) (skip : Z)
    (blk : list byte) : syscalls :=
  match dev with
  | None =>
      {| open_ok := false; lseek_pos := None;
         malloc_block := Some blk; read_res := ReadFailed |}
  | Some d =>
      let pos := if skip <? 0 then Z.of_nat (length d) + skip else skip in
      {| open_ok := true;
         lseek_pos := if pos <? 0 then None else Some pos;
         malloc_block := Some blk;
         read_res := ReadBytes (firstn 512 (skipn (Z.to_nat pos) d)) |}
  end.

Inductive skip_unit : Type := UNIT_SECTORS | UNIT_BYTES.

(** One [-s] option as [main] looks at it: the last character of [optarg]
    (taken to be non-empty: of an empty one [main] reads the byte before
    its start) and the number [strtoll] reads from it. *)
Record skip_option : Type := { opt_last : byte; opt_value : Z }.

(** The locals [skip], [skip_set] and [units] of [main]. *)
Record main_state : Type := {
  skip : Z; skip_set : bool; units : skip_unit
}.

(** [case 's'] of the option loop ('b' is [x62], 's' is [x73]). *)
Definition take_option (st : main_state) (o : skip_option) : main_state :=
  {| skip := opt_value o;
     skip_set := true;
     units := if Byte.eqb (opt_last o) x62 then UNIT_BYTES
              else if Byte.eqb (opt_last o) x73 then UNIT_SECTORS
              else units st |}.

(** The devices [main] may open: the one named on the command line, if
    any, and the two default locations. *)
Record devices : Type := {
  devfile : option (option (list byte));
  mmcblk0boot0 : option (list byte);
  mmcblk0 : option (list byte)
}.

(** [main] after option parsing ([-h] and unknown options leave through
    [usage_and_exit]): the runs of [read_config_block] it makes, in
    order.  The second default location is tried when the first run
    returned a value other than 0; a run without a return value is the
    last.  The value [main] returns is that of the last run. *)
Definition main (opts : list skip_option) (devs : devices) (blk : list byte)
  : list outcome :=
  let st := fold_left take_option opts
              {| skip := DEFAULT_ARG_PART_OFF; skip_set := false;
                 units := UNIT_SECTORS |} in
  let skip :=
    match units st with
    | UNIT_SECTORS => skip st * DEFAULT_SECTOR_SIZE
    | UNIT_BYTES => skip st
    end in
  match devfile devs with
  | None =>
      let first :=
        read_config_block
          (syscalls_on (mmcblk0boot0 devs)
             (if skip_set st then skip else DEFAULT_EMMC_BOOT_OFF) blk) in
      match ret_of first with
      | Some 0 => [first]
      | Some _ =>
          [first;
           read_config_block
             (syscalls_on (mmcblk0 devs)
                (if skip_set st then skip
                 else DEFAULT_ARG_PART_OFF * DEFAULT_SECTOR_SIZE) blk)]
      | None => [first]
      end
  | Some dev => [read_config_block (syscalls_on dev skip blk)]
  end.

End ConfigBlock.

(** * Properties *)

(** Closes a conjunction of closed equations by evaluation. *)
Ltac by_evaluation :=
  repeat match goal with |- _ /\ _ => split end;
  vm_compute; first [reflexivity | discriminate].

(** ** CRC32 *)

Module Crc32Facts.
Import Crc32.

(** *** Bytes *)

Lemma b2z_range (b : byte) : 0 <= b2z b < 256.
Proof. destruct b; vm_compute; split; congruence. Qed.

Lemma b2z_inj (a b : byte) : b2z a = b2z b -> a = b.
Proof.
  unfold b2z; intros H. apply N2Z.inj in H.
  assert (E : Some a = Some b)
    by (rewrite <- (Byte.of_to_N a), <- (Byte.of_to_N b); now rewrite H).
  now inversion E.
Qed.

(** *** Bit-level helpers on [Z] *)

Lemma lxor_cancel_l (a b c : Z) : Z.lxor a b = Z.lxor a c -> b = c.
Proof.
  intros H. apply (f_equal (Z.lxor a)) in H.
  rewrite <- !Z.lxor_assoc, Z.lxor_nilpotent, !Z.lxor_0_l in H. exact H.
Qed.

Lemma lxor_cancel_r (a b c : Z) : Z.lxor b a = Z.lxor c a -> b = c.
Proof. rewrite !(Z.lxor_comm _ a). apply lxor_cancel_l. Qed.

Lemma lxor_range (n a b : Z) :
  0 <= n -> 0 <= a < 2 ^ n -> 0 <= b < 2 ^ n -> 0 <= Z.lxor a b < 2 ^ n.
Proof.
  intros Hn Ha Hb.
  assert (E : Z.lxor a b mod 2 ^ n = Z.lxor a b).
  { apply Z.bits_inj'; intros k Hk.
    destruct (Z_lt_ge_dec k n) as [L | G].
    - now rewrite Z.mod_pow2_bits_low by lia.
    - rewrite Z.mod_pow2_bits_high by lia.
      rewrite Z.lxor_spec.
      rewrite <- (Z.mod_small a (2 ^ n)), <- (Z.mod_small b (2 ^ n)) by lia.
      now rewrite !Z.mod_pow2_bits_high by lia. }
  rewrite <- E. apply Z.mod_pos_bound. lia.
Qed.

Lemma land_lxor_distr (a b m : Z) :
  Z.land (Z.lxor a b) m = Z.lxor (Z.land a m) (Z.land b m).
Proof.
  apply Z.bits_inj'; intros k _.
  rewrite !Z.lxor_spec, !Z.land_spec, Z.lxor_spec.
  destruct (Z.testbit a k), (Z.testbit b k), (Z.testbit m k); reflexivity.
Qed.

Lemma split_low8 (c : Z) : c = 256 * Z.shiftr c 8 + Z.land c 0xFF.
Proof.
  change 0xFF with (Z.ones 8).
  rewrite Z.land_ones, Z.shiftr_div_pow2 by lia.
  change (2 ^ 8) with 256. apply Z.div_mod. lia.
Qed.

(** *** The table *)

Lemma in_table_indices (i : Z) : 0 <= i < 256 -> In i table_indices.
Proof.
  intros H. unfold table_indices.
  rewrite <- (Z2Nat.id i) by lia.
  apply in_map, in_seq. lia.
Qed.

Lemma table_check (P : Z -> bool) :
  forallb P table_indices = true -> forall i, 0 <= i < 256 -> P i = true.
Proof.
  intros H i Hi. rewrite forallb_forall in H. apply H, in_table_indices, Hi.
Qed.

Lemma tab_range (i : Z) : 0 <= i < 256 -> 0 <= tab i < 2 ^ 32.
Proof.
  intros Hi.
  assert (C : forallb (fun i => (0 <=? tab i) && (tab i <? 2 ^ 32))
                table_indices = true) by (vm_compute; reflexivity).
  pose proof (table_check _ C i Hi) as H.
  cbv beta in H. apply andb_true_iff in H. lia.
Qed.

(** Every entry is the eight-fold shift step of its index. *)
Lemma tab_bit_step8 (i : Z) : 0 <= i < 256 -> tab i = bit_step8 i.
Proof.
  intros Hi.
  assert (C : forallb (fun i => tab i =? bit_step8 i) table_indices = true)
    by (vm_compute; reflexivity).
  pose proof (table_check _ C i Hi) as H.
  cbv beta in H. lia.
Qed.

(** The top bytes of the entries are pairwise distinct. *)
Lemma tab_top_inj (i j : Z) :
  0 <= i < 256 -> 0 <= j < 256 ->
  Z.shiftr (tab i) 24 = Z.shiftr (tab j) 24 -> i = j.
Proof.
  intros Hi Hj E.
  assert (C : forallb (fun i => forallb (fun j =>
       implb (Z.shiftr (tab i) 24 =? Z.shiftr (tab j) 24) (i =? j))
       table_indices) table_indices = true) by (vm_compute; reflexivity).
  pose proof (table_check _ C i Hi) as H.
  cbv beta in H. rewrite forallb_forall in H.
  specialize (H j (in_table_indices j Hj)).
  apply Z.eqb_eq in E. rewrite E in H. simpl in H. lia.
Qed.

Lemma low8_range (x : Z) : 0 <= Z.land x 0xFF < 256.
Proof.
  change 0xFF with (Z.ones 8). rewrite Z.land_ones by lia.
  change (2 ^ 8) with 256. apply Z.mod_pos_bound. lia.
Qed.

(** *** The loop body *)

Lemma crc_step_range (c : Z) (b : byte) : u32 c -> u32 (crc_step c b).
Proof.
  intros Hc. unfold u32, crc_step in *.
  apply lxor_range; [lia | apply tab_range, low8_range |].
  rewrite Z.shiftr_div_pow2 by lia. split.
  - apply Z.div_pos; lia.
  - apply Z.div_lt_upper_bound; lia.
Qed.

Lemma fold_crc_step_range (bs : list byte) (c : Z) :
  u32 c -> u32 (fold_left crc_step bs c).
Proof.
  revert c; induction bs as [| b bs IH]; intros c Hc; simpl; auto.
  apply IH, crc_step_range, Hc.
Qed.

(** The table index of a step is recoverable from the top byte of its
    result: the shifted register contributes nothing there. *)
Lemma crc_step_top (c : Z) (b : byte) :
  u32 c ->
  Z.shiftr (crc_step c b) 24 =
  Z.shiftr (tab (Z.land (Z.lxor c (b2z b)) 0xFF)) 24.
Proof.
  intros Hc. unfold crc_step.
  rewrite Z.shiftr_lxor, Z.shiftr_shiftr by lia.
  change (8 + 24) with 32.
  rewrite (Z.shiftr_div_pow2 c 32), Z.div_small by (unfold u32 in Hc; lia).
  apply Z.lxor_0_r.
Qed.

Lemma crc_step_index (c1 c2 : Z) (b1 b2 : byte) :
  u32 c1 -> u32 c2 -> crc_step c1 b1 = crc_step c2 b2 ->
  Z.land (Z.lxor c1 (b2z b1)) 0xFF = Z.land (Z.lxor c2 (b2z b2)) 0xFF.
Proof.
  intros H1 H2 E.
  apply tab_top_inj; try apply low8_range.
  rewrite <- !crc_step_top by assumption. now rewrite E.
Qed.

(** For a fixed byte the step is injective in the register... *)
Lemma crc_step_inj_crc (c1 c2 : Z) (b : byte) :
  u32 c1 -> u32 c2 -> crc_step c1 b = crc_step c2 b -> c1 = c2.
Proof.
  intros H1 H2 E.
  pose proof (crc_step_index c1 c2 b b H1 H2 E) as Hi.
  unfold crc_step in E. rewrite Hi in E. apply lxor_cancel_l in E.
  rewrite !land_lxor_distr in Hi. apply lxor_cancel_r in Hi.
  rewrite (split_low8 c1), (split_low8 c2). congruence.
Qed.

(** ... and for a fixed register it is injective in the byte. *)
Lemma crc_step_inj_byte (c : Z) (b1 b2 : byte) :
  u32 c -> crc_step c b1 = crc_step c b2 -> b1 = b2.
Proof.
  intros Hc E.
  pose proof (crc_step_index c c b1 b2 Hc Hc E) as Hi.
  rewrite !land_lxor_distr in Hi. apply lxor_cancel_l in Hi.
  apply b2z_inj.
  pose proof (b2z_range b1). pose proof (b2z_range b2).
  change 0xFF with (Z.ones 8) in Hi.
  rewrite !Z.land_ones in Hi by lia.
  rewrite !Z.mod_small in Hi by (change (2 ^ 8) with 256; lia).
  exact Hi.
Qed.

Lemma fold_crc_step_inj (bs : list byte) (c1 c2 : Z) :
  u32 c1 -> u32 c2 ->
  fold_left crc_step bs c1 = fold_left crc_step bs c2 -> c1 = c2.
Proof.
  revert c1 c2; induction bs as [| b bs IH]; intros c1 c2 H1 H2 E; simpl in E.
  - exact E.
  - apply IH in E; try now apply crc_step_range.
    now apply crc_step_inj_crc in E.
Qed.

(** Two messages that differ in exactly one byte have different CRCs. *)
Lemma crc32_one_byte (pre suf : list byte) (b1 b2 : byte) :
  b1 <> b2 -> crc32 (pre ++ b1 :: suf) <> crc32 (pre ++ b2 :: suf).
Proof.
  intros Hb E. apply Hb. unfold crc32 in E. apply lxor_cancel_r in E.
  rewrite !fold_left_app in E. simpl in E.
  assert (Hpre : u32 (fold_left crc_step pre 0xFFFFFFFF))
    by (apply fold_crc_step_range; unfold u32; lia).
  apply fold_crc_step_inj in E; try now apply crc_step_range.
  now apply crc_step_inj_byte in E.
Qed.

(** *** Table-driven step against the bit-serial step *)

(** The shift step is linear over xor. *)
Lemma bit_step_lxor (x y : Z) :
  bit_step (Z.lxor x y) = Z.lxor (bit_step x) (bit_step y).
Proof.
  unfold bit_step. rewrite Z.lxor_spec, Z.shiftr_lxor.
  destruct (Z.testbit x 0), (Z.testbit y 0); simpl.
  - rewrite (Z.lxor_comm (Z.shiftr y 1) ieee_poly), Z.lxor_assoc.
    rewrite <- (Z.lxor_assoc ieee_poly), Z.lxor_nilpotent, Z.lxor_0_l.
    reflexivity.
  - rewrite !Z.lxor_assoc. f_equal. apply Z.lxor_comm.
  - rewrite Z.lxor_assoc. reflexivity.
  - reflexivity.
Qed.

Lemma bit_step8_lxor (x y : Z) :
  bit_step8 (Z.lxor x y) = Z.lxor (bit_step8 x) (bit_step8 y).
Proof. unfold bit_step8. now rewrite !bit_step_lxor. Qed.

(** On a value whose low bit is clear the step is a plain shift. *)
Lemma bit_step_shiftl (y k : Z) :
  0 < k -> bit_step (Z.shiftl y k) = Z.shiftl y (k - 1).
Proof.
  intros Hk. unfold bit_step.
  rewrite Z.shiftl_spec_low by lia.
  apply Z.shiftr_shiftl_l. lia.
Qed.

Lemma bit_step8_shiftl8 (y : Z) : bit_step8 (Z.shiftl y 8) = y.
Proof.
  unfold bit_step8.
  rewrite !bit_step_shiftl by lia. apply Z.shiftl_0_r.
Qed.

Lemma split_high8 (x : Z) :
  x = Z.lxor (Z.land x 0xFF) (Z.shiftl (Z.shiftr x 8) 8).
Proof.
  apply Z.bits_inj'; intros k Hk.
  rewrite Z.lxor_spec. change 0xFF with (Z.ones 8).
  rewrite Z.land_ones by lia.
  destruct (Z_lt_ge_dec k 8) as [L | G].
  - rewrite Z.mod_pow2_bits_low, Z.shiftl_spec_low by lia.
    now rewrite xorb_false_r.
  - rewrite Z.mod_pow2_bits_high, Z.shiftl_spec, Z.shiftr_spec by lia.
    simpl. f_equal. lia.
Qed.

Lemma bit_step8_table (x : Z) :
  bit_step8 x = Z.lxor (tab (Z.land x 0xFF)) (Z.shiftr x 8).
Proof.
  rewrite (split_high8 x) at 1.
  rewrite bit_step8_lxor, bit_step8_shiftl8.
  now rewrite <- tab_bit_step8 by apply low8_range.
Qed.

Lemma crc_step_ieee (c : Z) (b : byte) : crc_step c b = ieee_step c b.
Proof.
  unfold ieee_step, crc_step. rewrite bit_step8_table. f_equal.
  rewrite Z.shiftr_lxor.
  rewrite (Z.shiftr_div_pow2 (b2z b)), Z.div_small
    by (pose proof (b2z_range b); change (2 ^ 8) with 256; lia).
  now rewrite Z.lxor_0_r.
Qed.

Lemma fold_crc_step_ieee (bs : list byte) (c : Z) :
  fold_left crc_step bs c = fold_left ieee_step bs c.
Proof.
  revert c; induction bs as [| b bs IH]; intros c; simpl; auto.
  now rewrite crc_step_ieee, IH.
Qed.

(** *** [crc32(buf, len)] against [crc32] of the bytes it covers *)

Lemma crc32_loop_firstn (buf : list byte) (n : nat) (c : Z) :
  (n <= length buf)%nat ->
  crc32_loop buf (Z.of_nat n) c = Some (fold_left crc_step (firstn n buf) c).
Proof.
  revert n c; induction buf as [| b buf IH]; intros n c Hn.
  - simpl in Hn. assert (n = 0%nat) by lia. subst. reflexivity.
  - destruct n as [| n].
    + reflexivity.
    + cbn [crc32_loop firstn fold_left].
      destruct (Z.eqb_spec (Z.of_nat (S n)) 0) as [E | _]; [lia |].
      replace (Z.of_nat (S n) - 1) with (Z.of_nat n) by lia.
      apply IH. simpl in Hn. lia.
Qed.

Lemma crc32_mem_firstn (buf : list byte) (n : nat) :
  (n <= length buf)%nat ->
  crc32_mem buf (Z.of_nat n) = Some (crc32 (firstn n buf)).
Proof.
  intros Hn. unfold crc32_mem, crc32. now rewrite crc32_loop_firstn.
Qed.

(** A length beyond the object makes the loop read past its end. *)
Lemma crc32_loop_overrun (buf : list byte) (len c : Z) :
  Z.of_nat (length buf) < len -> crc32_loop buf len c = None.
Proof.
  revert len c; induction buf as [| b buf IH]; intros len c H; simpl in *.
  - destruct (Z.eqb_spec len 0); [lia | reflexivity].
  - destruct (Z.eqb_spec len 0); [lia | apply IH; lia].
Qed.

Lemma crc32_mem_overrun (buf : list byte) (len : Z) :
  Z.of_nat (length buf) < len -> crc32_mem buf len = None.
Proof. intros H. unfold crc32_mem. now rewrite crc32_loop_overrun. Qed.

(** C7. [crc32] is the reflected IEEE 802.3 CRC-32: each table entry is
    the eight-fold shift step with polynomial 0xEDB88320 of its index, the
    table-driven function equals the bit-serial CRC-32 (initial register
    0xFFFFFFFF, final xor 0xFFFFFFFF) on every byte sequence, the C
    function [crc32(buf, len)] run over a whole buffer returns it, the CRC
    of no bytes is 0, the CRC of "123456789" is 0xCBF43926, and equal
    inputs give equal outputs. *)
Theorem crc32_is_ieee_crc32 :
  crc32 [] = 0
  /\ crc32 check_string = 0xCBF43926
  /\ length crc32_tab = 256%nat
  /\ (forall i, 0 <= i < 256 -> tab i = bit_step8 i)
  /\ (forall bs, crc32 bs = ieee_crc32 bs)
  /\ (forall bs, crc32_mem bs (Z.of_nat (length bs)) = Some (crc32 bs))
  /\ (forall bs1 bs2, bs1 = bs2 -> crc32 bs1 = crc32 bs2).
Proof.
  split; [reflexivity |].
  split; [vm_compute; reflexivity |].
  split; [reflexivity |].
  split; [exact tab_bit_step8 |].
  split; [| split].
  - intros bs. unfold crc32, ieee_crc32. now rewrite fold_crc_step_ieee.
  - intros bs. rewrite crc32_mem_firstn by lia. now rewrite firstn_all.
  - intros bs1 bs2 E. now rewrite E.
Qed.

Lemma crc32_is_ieee_crc32_witness :
  tab 1 = bit_step8 1 /\ crc32 check_string = crc32 check_string.
Proof.
  split.
  - apply (proj1 (proj2 (proj2 (proj2 crc32_is_ieee_crc32)))). lia.
  - apply (proj2 (proj2 (proj2 (proj2 (proj2 (proj2 crc32_is_ieee_crc32)))))).
    reflexivity.
Defined.
End Crc32Facts.

(** ** Buffers *)

Module BufferFacts.

Lemma poke_length (l : list byte) (i : nat) (b : byte) :
  length (poke l i b) = length l.
Proof.
  revert i; induction l as [| h t IH]; intros [| i]; simpl; auto.
Qed.

Lemma nth_poke_other (l : list byte) (i j : nat) (b d : byte) :
  i <> j -> nth j (poke l i b) d = nth j l d.
Proof.
  revert i j; induction l as [| h t IH]; intros [| i] [| j] H; simpl;
    try reflexivity; try congruence.
  apply IH. congruence.
Qed.

Lemma poke_comm (l : list byte) (i j : nat) (a b : byte) :
  i <> j -> poke (poke l i a) j b = poke (poke l j b) i a.
Proof.
  revert i j; induction l as [| h t IH]; intros [| i] [| j] H; simpl;
    try reflexivity; try congruence.
  f_equal. apply IH. congruence.
Qed.

Lemma firstn_poke (l : list byte) (n i : nat) (b : byte) :
  firstn n (poke l i b) = poke (firstn n l) i b.
Proof.
  revert n i; induction l as [| h t IH]; intros [| n] [| i]; simpl;
    try reflexivity.
  f_equal. apply IH.
Qed.

Lemma poke_outside (l : list byte) (i : nat) (b : byte) :
  (length l <= i)%nat -> poke l i b = l.
Proof.
  revert i; induction l as [| h t IH]; intros [| i] H; simpl in *;
    try reflexivity; try lia.
  f_equal. apply IH. lia.
Qed.

(** A store inside the list replaces exactly one element. *)
Lemma poke_split (l : list byte) (i : nat) (b : byte) :
  (i < length l)%nat ->
  l = firstn i l ++ nth i l x00 :: skipn (S i) l
  /\ poke l i b = firstn i l ++ b :: skipn (S i) l.
Proof.
  revert i; induction l as [| h t IH]; intros [| i] H; simpl in *;
    try lia.
  - split; reflexivity.
  - destruct (IH i) as [E1 E2]; [lia |]. split.
    + f_equal. exact E1.
    + f_equal. exact E2.
Qed.

Lemma byte_at_poke_other (l : list byte) (i j : nat) (b : byte) :
  i <> j -> byte_at (poke l i b) j = byte_at l j.
Proof. intros H. unfold byte_at. now rewrite nth_poke_other. Qed.

Lemma le32_poke_other (l : list byte) (i o : nat) (b : byte) :
  (i < o \/ o + 4 <= i)%nat -> le32 (poke l i b) o = le32 l o.
Proof.
  intros H. unfold le32. now rewrite !byte_at_poke_other by lia.
Qed.

Lemma byte_at_nonneg (l : list byte) (i : nat) : 0 <= byte_at l i.
Proof. unfold byte_at. apply Crc32Facts.b2z_range. Qed.

Lemma le32_nonneg (l : list byte) (o : nat) : 0 <= le32 l o.
Proof.
  unfold le32.
  repeat (apply Z.lor_nonneg; split);
    try apply Z.shiftl_nonneg; apply byte_at_nonneg.
Qed.

Lemma le16_nonneg (l : list byte) (o : nat) : 0 <= le16 l o.
Proof.
  unfold le16.
  repeat (apply Z.lor_nonneg; split);
    try apply Z.shiftl_nonneg; apply byte_at_nonneg.
Qed.

End BufferFacts.

(** ** Partition table *)

Module PartitionTableFacts.
Import NvTegraParts.

Lemma bytes_eqb_eq (a b : list byte) : bytes_eqb a b = true <-> a = b.
Proof.
  unfold bytes_eqb. destruct (list_eq_dec byte_eq_dec a b); split;
    congruence.
Qed.

Lemma pt_buffer_length (file : list byte) :
  (MAX_SIZE <= length file)%nat -> length (pt_buffer file) = MAX_SIZE.
Proof. intros H. unfold pt_buffer. rewrite length_firstn. lia. Qed.

Lemma is_bct_name_iff (p : nvtegra_partinfo) :
  is_bct_name p = true <-> name p = PT_BCT_NAME /\ name2 p = PT_BCT_NAME.
Proof.
  unfold is_bct_name. now rewrite andb_true_iff, !bytes_eqb_eq.
Qed.

Lemma bct_checks_iff (p : nvtegra_partinfo) :
  bct_checks p = true <-> bct_ok p.
Proof.
  unfold bct_checks, bct_ok.
  rewrite !andb_true_iff, is_bct_name_iff, !Z.eqb_eq. tauto.
Qed.

(** The parse, case by case. *)
Lemma parse_short (file : list byte) :
  (length file < MAX_SIZE)%nat ->
  parse_partition_table file = ([], inl PtShortRead).
Proof.
  intros H. unfold parse_partition_table, pt_buffer.
  rewrite length_firstn.
  destruct (Nat.eqb_spec (Nat.min MAX_SIZE (length file)) MAX_SIZE); [lia |].
  reflexivity.
Qed.

Lemma parse_bad_version (file : list byte) :
  (MAX_SIZE <= length file)%nat ->
  pt_version (pt_buffer file) <> PT_VERSION ->
  parse_partition_table file =
  ([], inl (VersionMismatch (pt_version (pt_buffer file)) PT_VERSION)).
Proof.
  intros HL HV. unfold parse_partition_table.
  rewrite pt_buffer_length, Nat.eqb_refl by assumption. cbn [negb].
  destruct (Z.eqb_spec (pt_version (pt_buffer file)) PT_VERSION); [easy |].
  reflexivity.
Qed.

Lemma parse_good_version (file : list byte) :
  (MAX_SIZE <= length file)%nat ->
  pt_version (pt_buffer file) = PT_VERSION ->
  let buf := pt_buffer file in
  let p := partition buf 0 in
  let out := [PrintHeader (pt_num_parts buf) (pt_table_size buf);
              PrintPartition 0 p] in
  parse_partition_table file =
  if bct_checks p then
    (out ++ fst (scan_partitions buf (pt_num_parts buf)
                   (seq 1 (MAX_NUM_PARTS - 1)) None),
     inr (snd (scan_partitions buf (pt_num_parts buf)
                   (seq 1 (MAX_NUM_PARTS - 1)) None)))
  else
    (out, inl (InvalidBootConfigRecord
                 (if negb (id p =? BCT_ID) then BadBctId
                  else if negb (is_bct_name p) then BadBctName
                  else BadBctStartSector))).
Proof.
  intros HL HV buf p out. unfold parse_partition_table.
  rewrite pt_buffer_length, Nat.eqb_refl by assumption.
  rewrite HV, Z.eqb_refl. cbn [negb]. cbv zeta.
  fold buf. fold p. unfold bct_checks.
  destruct (id p =? BCT_ID); cbn [negb andb]; [| reflexivity].
  destruct (is_bct_name p); cbn [negb andb]; [| reflexivity].
  destruct (start_sector p =? 0); cbn [negb andb]; [| reflexivity].
  destruct (scan_partitions _ _ _ _); reflexivity.
Qed.


(** *** The record loop *)

Lemma first_invalid_lower (buf : list byte) (a n : nat) :
  Z.of_nat a <= first_invalid buf a n.
Proof.
  unfold first_invalid.
  destruct (find (invalid_id buf) (seq a n)) as [i |] eqn:F; [| lia].
  apply find_some in F. destruct F as [F _]. apply in_seq in F. lia.
Qed.

Lemma first_invalid_is_invalid (buf : list byte) (a n : nat) (i : nat) :
  first_invalid buf a n = Z.of_nat i -> (i < a + n)%nat ->
  128 <= id (partition buf i).
Proof.
  unfold first_invalid.
  destruct (find (invalid_id buf) (seq a n)) as [j |] eqn:F; [| lia].
  intros E _. apply find_some in F. destruct F as [_ F].
  unfold invalid_id in F. assert (j = i) by lia. subst. lia.
Qed.

(** The loop hands over the records from [a] up to where it stops. *)
Lemma scan_partitions_printed (buf : list byte) (num_parts : Z) (n : nat) :
  forall (a : nat) (gpt : option (nat * nvtegra_partinfo)),
  printed_records (fst (scan_partitions buf num_parts (seq a n) gpt)) =
  records buf a (Z.to_nat (loop_stop buf num_parts a n) - a).
Proof.
  induction n as [| n IH]; intros a gpt.
  - cbn [seq scan_partitions fst printed_records].
    replace (Z.to_nat (loop_stop buf num_parts a 0) - a)%nat with 0%nat
      by (unfold loop_stop; lia).
    reflexivity.
  - cbn [seq scan_partitions].
    pose proof (first_invalid_lower buf (S a) n) as Hlow.
    assert (Hstop : loop_stop buf num_parts a (S n) =
                    if Z.of_nat a <? num_parts then
                      if invalid_id buf a then Z.of_nat a
                      else loop_stop buf num_parts (S a) n
                    else loop_stop buf num_parts a (S n)).
    { unfold loop_stop, first_invalid. cbn [seq find].
      destruct (Z.ltb_spec (Z.of_nat a) num_parts);
        destruct (invalid_id buf a); try lia.
      replace (a + S n)%nat with (S a + n)%nat by lia. reflexivity. }
    destruct (Z.ltb_spec (Z.of_nat a) num_parts) as [Hlt | Hge].
    + fold (invalid_id buf a). destruct (invalid_id buf a) eqn:Hbad.
      * cbn [fst printed_records]. rewrite Hstop.
        replace (Z.to_nat (Z.of_nat a) - a)%nat with 0%nat by lia.
        reflexivity.
      * destruct (scan_partitions buf num_parts (seq (S a) n) _)
          as [evs g] eqn:Hscan.
        cbn [fst printed_records].
        pose proof (IH (S a) (if is_gpt_name (partition buf a)
                              then Some (a, partition buf a) else gpt)) as IH'.
        rewrite Hscan in IH'. cbn [fst] in IH'. rewrite IH', Hstop.
        assert (Z.of_nat (S a) <= loop_stop buf num_parts (S a) n)
          by (unfold loop_stop; lia).
        replace (Z.to_nat (loop_stop buf num_parts (S a) n) - a)%nat
          with (S (Z.to_nat (loop_stop buf num_parts (S a) n) - S a)) by lia.
        reflexivity.
    + cbn [fst printed_records].
      replace (Z.to_nat (loop_stop buf num_parts a (S n)) - a)%nat with 0%nat
        by (unfold loop_stop; lia).
      reflexivity.
Qed.

Lemma records_length (buf : list byte) (a n : nat) :
  length (records buf a n) = n.
Proof. unfold records. now rewrite length_map, length_seq. Qed.

Lemma printed_records_app (e1 e2 : list event) :
  printed_records (e1 ++ e2) = printed_records e1 ++ printed_records e2.
Proof.
  induction e1 as [| [? ? | ? ? | ?] e1 IH]; cbn [app printed_records];
    now rewrite ?IH.
Qed.


(** *** Version check *)

(** C1, amended.  For every image of at least 4096 bytes the parse goes
    past the version check (and writes the table header line) exactly when
    the little-endian version word at offset 8 equals [PT_VERSION], which
    is 0x00000100; otherwise it fails with [VersionMismatch] before
    anything is written. *)
Theorem version_check_exact (file : list byte) :
  (MAX_SIZE <= length file)%nat ->
  let buf := pt_buffer file in
  PT_VERSION = 0x00000100
  /\ ((exists evs r,
         parse_partition_table file =
         (PrintHeader (pt_num_parts buf) (pt_table_size buf) :: evs, r))
      <-> pt_version buf = 0x00000100)
  /\ (parse_partition_table file =
       ([], inl (VersionMismatch (pt_version buf) 0x00000100))
      <-> pt_version buf <> 0x00000100).
Proof.
  intros HL buf. split; [reflexivity |].
  change 0x00000100 with PT_VERSION.
  destruct (Z.eq_dec (pt_version buf) PT_VERSION) as [E | NE].
  - pose proof (parse_good_version file HL E) as P. cbv zeta in P.
    fold buf in P. split; split; intros H; try assumption.
    + destruct (bct_checks (partition buf 0));
        rewrite P; eexists; eexists; reflexivity.
    + rewrite P in H. destruct (bct_checks (partition buf 0)); discriminate.
    + contradiction.
  - pose proof (parse_bad_version file HL NE) as P. fold buf in P.
    split; split; intros H; try assumption.
    + destruct H as (evs & r & H). rewrite P in H. discriminate.
    + contradiction.
Qed.

Lemma version_check_exact_witness :
  exists evs r,
    parse_partition_table image_three =
    (PrintHeader (pt_num_parts (pt_buffer image_three))
                 (pt_table_size (pt_buffer image_three)) :: evs, r).
Proof.
  assert (HL : (MAX_SIZE <= length image_three)%nat)
    by (apply Nat.leb_le; vm_compute; reflexivity).
  apply (proj1 (proj2 (version_check_exact image_three HL))).
  vm_compute; reflexivity.
Defined.

(** C1, as stated, fails: an image whose version word is 0x00010000 (bytes
    00 00 01 00) and whose record 0 is a well-formed BCT record is turned
    down at the version check. *)
Lemma version_0x00010000_rejected :
  length image_version_10000 = 4096%nat
  /\ pt_version (pt_buffer image_version_10000) = 0x00010000
  /\ parse_partition_table image_version_10000 =
     ([], inl (VersionMismatch 0x00010000 0x00000100)).
Proof. cbv zeta. by_evaluation. Qed.

(** *** Record 0 *)

(** C4, amended.  Past the version check, record 0 is accepted exactly
    when its id is 2, all four bytes of both name fields are 'B' 'C' 'T'
    NUL, and its start sector is 0.  Otherwise the parse fails with
    [InvalidBootConfigRecord]: the header line and record 0 have been
    written by then, no later record is looked at and no GPT locator is
    returned. *)
Theorem bct_record_validation (file : list byte) :
  (MAX_SIZE <= length file)%nat ->
  let buf := pt_buffer file in
  let p := partition buf 0 in
  pt_version buf = PT_VERSION ->
  ((exists evs gpt, parse_partition_table file = (evs, inr gpt))
   <-> (id p = 2 /\ name p = [x42; x43; x54; x00]
        /\ name2 p = [x42; x43; x54; x00] /\ start_sector p = 0))
  /\ (~ bct_ok p ->
      exists why,
        parse_partition_table file =
        ([PrintHeader (pt_num_parts buf) (pt_table_size buf);
          PrintPartition 0 p],
         inl (InvalidBootConfigRecord why))).
Proof.
  intros HL buf p HV.
  pose proof (parse_good_version file HL HV) as P. cbv zeta in P.
  fold buf in P. fold p in P.
  change (id p = 2 /\ name p = [x42; x43; x54; x00]
          /\ name2 p = [x42; x43; x54; x00] /\ start_sector p = 0)
    with (bct_ok p).
  rewrite <- bct_checks_iff.
  destruct (bct_checks p); rewrite P; split.
  - split; [reflexivity | intros _; eexists; eexists; reflexivity].
  - intros H; now elim H.
  - split; [intros (evs & gpt & H); discriminate | discriminate].
  - intros _. eexists; reflexivity.
Qed.

Lemma bct_record_validation_witness :
  exists evs gpt, parse_partition_table image_three = (evs, inr gpt).
Proof.
  assert (HL : (MAX_SIZE <= length image_three)%nat)
    by (apply Nat.leb_le; vm_compute; reflexivity).
  assert (HV : pt_version (pt_buffer image_three) = PT_VERSION)
    by (vm_compute; reflexivity).
  apply (proj1 (bct_record_validation image_three HL HV)).
  by_evaluation.
Defined.

(** C4, as stated, fails: record 0 with id 2, start sector 0 and both name
    fields "BCTX" agrees with "BCT" on the first three bytes, yet the
    parse fails with [InvalidBootConfigRecord]; and record 0 has been
    handed to the sink by the time the parse fails. *)
Lemma bct_fourth_byte_compared :
  let p := partition (pt_buffer image_bctx) 0 in
  length image_bctx = 4096%nat
  /\ pt_version (pt_buffer image_bctx) = PT_VERSION
  /\ id p = 2 /\ start_sector p = 0
  /\ firstn 3 (name p) = [x42; x43; x54]
  /\ firstn 3 (name2 p) = [x42; x43; x54]
  /\ snd (parse_partition_table image_bctx) =
     inl (InvalidBootConfigRecord BadBctName)
  /\ printed_records (fst (parse_partition_table image_bctx)) = [(0%nat, p)].
Proof. cbv zeta. by_evaluation. Qed.


(** *** Iteration over records 1.. *)

Lemma stop_index_loop_stop (buf : list byte) :
  id (partition buf 0) < 128 ->
  loop_stop buf (pt_num_parts buf) 1 (MAX_NUM_PARTS - 1) = stop_index buf.
Proof.
  intros H0. unfold loop_stop, stop_index, first_invalid.
  change (seq 0 MAX_NUM_PARTS) with (0%nat :: seq 1 (MAX_NUM_PARTS - 1)).
  cbn [find]. unfold invalid_id at 2.
  destruct (Z.leb_spec 128 (id (partition buf 0))); [lia |].
  reflexivity.
Qed.

(** A parse that passes validation hands over record 0 and the records
    up to the stop index. *)
Lemma parse_valid_records (file : list byte) :
  (MAX_SIZE <= length file)%nat ->
  let buf := pt_buffer file in
  pt_version buf = PT_VERSION ->
  bct_ok (partition buf 0) ->
  exists evs gpt,
    parse_partition_table file = (evs, inr gpt)
    /\ printed_records evs =
       (0%nat, partition buf 0)
       :: records buf 1 (Z.to_nat (stop_index buf) - 1).
Proof.
  intros HL buf HV Hbct.
  pose proof (parse_good_version file HL HV) as P. cbv zeta in P.
  fold buf in P. rewrite (proj2 (bct_checks_iff _) Hbct) in P.
  eexists; eexists. split; [exact P |].
  assert (H0 : id (partition buf 0) < 128)
    by (destruct Hbct as [-> _]; reflexivity).
  rewrite printed_records_app, scan_partitions_printed.
  now rewrite stop_index_loop_stop.
Qed.

(** With a declared count within the maximum and no id out of range below
    it, the loop stops at the declared count. *)
Lemma stop_index_declared (buf : list byte) :
  pt_num_parts buf <= 24 ->
  (forall i : nat, Z.of_nat i < pt_num_parts buf ->
                   id (partition buf i) < 128) ->
  stop_index buf = pt_num_parts buf.
Proof.
  intros Hnp Hids. unfold stop_index.
  assert (pt_num_parts buf <= first_invalid buf 0 MAX_NUM_PARTS).
  { destruct (Z_le_gt_dec (pt_num_parts buf)
                (first_invalid buf 0 MAX_NUM_PARTS)) as [L | G]; [exact L |].
    pose proof (first_invalid_lower buf 0 MAX_NUM_PARTS) as Hlow.
    pose proof (first_invalid_is_invalid buf 0 MAX_NUM_PARTS
                  (Z.to_nat (first_invalid buf 0 MAX_NUM_PARTS))) as Hinv.
    assert (Hi : 128 <= id (partition buf
                   (Z.to_nat (first_invalid buf 0 MAX_NUM_PARTS)))).
    { apply Hinv; [lia |]. unfold MAX_NUM_PARTS in *. lia. }
    specialize (Hids (Z.to_nat (first_invalid buf 0 MAX_NUM_PARTS))).
    lia. }
  unfold MAX_NUM_PARTS in *. lia.
Qed.

(** The count of a table whose declared records are all in range. *)
Lemma records_count_declared (buf : list byte) :
  bct_ok (partition buf 0) ->
  1 <= pt_num_parts buf <= 24 ->
  (forall i : nat, 1 <= Z.of_nat i < pt_num_parts buf ->
                   id (partition buf i) < 128) ->
  Z.of_nat (length ((0%nat, partition buf 0)
                    :: records buf 1 (Z.to_nat (stop_index buf) - 1)))
  = pt_num_parts buf.
Proof.
  intros Hbct Hnp Hids.
  assert (Hstop : stop_index buf = pt_num_parts buf).
  { apply stop_index_declared; [apply Hnp |].
    intros i Hi. destruct i as [| i].
    - destruct Hbct as [E _]. rewrite E. reflexivity.
    - apply Hids. lia. }
  rewrite Hstop. cbn [length]. rewrite records_length. lia.
Qed.

(** C5, amended.  For every image that passes the version check and the
    validation of record 0, the parse succeeds and hands over record 0
    followed by exactly the records 1 .. k-1, where k is the least of the
    declared [num_parts], the maximum 24 and the first index whose id is
    >= 128; an id >= 128 only ends the iteration.  When moreover
    1 <= num_parts <= 24 and every record below [num_parts] has an id
    below 128, the number of records handed over equals [num_parts]. *)
Theorem record_iteration (file : list byte) :
  (MAX_SIZE <= length file)%nat ->
  let buf := pt_buffer file in
  pt_version buf = PT_VERSION ->
  bct_ok (partition buf 0) ->
  exists evs gpt,
    parse_partition_table file = (evs, inr gpt)
    /\ printed_records evs =
       (0%nat, partition buf 0)
       :: records buf 1 (Z.to_nat (stop_index buf) - 1)
    /\ (1 <= pt_num_parts buf <= 24 ->
        (forall i : nat, 1 <= Z.of_nat i < pt_num_parts buf ->
                         id (partition buf i) < 128) ->
        Z.of_nat (length (printed_records evs)) = pt_num_parts buf).
Proof.
  intros HL buf HV Hbct. subst buf.
  destruct (parse_valid_records file HL HV Hbct) as (evs & gpt & P & R).
  exists evs, gpt. split; [exact P |]. split; [exact R |].
  intros Hnp Hids. rewrite R.
  exact (records_count_declared (pt_buffer file) Hbct Hnp Hids).
Qed.

Lemma record_iteration_witness :
  exists evs gpt,
    parse_partition_table image_truncated = (evs, inr gpt)
    /\ printed_records evs =
       (0%nat, partition (pt_buffer image_truncated) 0)
       :: records (pt_buffer image_truncated) 1 1.
Proof.
  assert (HL : (MAX_SIZE <= length image_truncated)%nat)
    by (apply Nat.leb_le; vm_compute; reflexivity).
  assert (HV : pt_version (pt_buffer image_truncated) = PT_VERSION)
    by (vm_compute; reflexivity).
  assert (HB : bct_ok (partition (pt_buffer image_truncated) 0))
    by (unfold bct_ok; by_evaluation).
  destruct (record_iteration image_truncated HL HV HB)
    as (evs & gpt & P & R & _).
  exists evs, gpt. split; [exact P |].
  rewrite R. f_equal.
Defined.

(** C5, as stated, fails on the count: with a declared [num_parts] of 0
    and a well-formed record 0 the parse succeeds, no record is iterated,
    and one record (record 0) is handed over, not 0. *)
Lemma count_roundtrip_fails_at_zero :
  length image_no_parts = 4096%nat
  /\ pt_num_parts (pt_buffer image_no_parts) = 0
  /\ snd (parse_partition_table image_no_parts) = inr None
  /\ length (printed_records (fst (parse_partition_table image_no_parts)))
     = 1%nat.
Proof. cbv zeta. by_evaluation. Qed.

End PartitionTableFacts.

(** ** GPT header *)

Module GptFacts.
Import NvTegraParts Crc32 Crc32Facts BufferFacts.

Lemma zero_crc_self_length (blk : list byte) :
  length (zero_crc_self blk) = length blk.
Proof. unfold zero_crc_self. now rewrite !poke_length. Qed.

Lemma zero_crc_self_poke (blk : list byte) (i : nat) (b : byte) :
  (i < 16 \/ 20 <= i)%nat ->
  zero_crc_self (poke blk i b) = poke (zero_crc_self blk) i b.
Proof.
  intros H. unfold zero_crc_self.
  now rewrite !(poke_comm _ i) by lia.
Qed.

Lemma zero_crc_self_size (blk : list byte) :
  gpt_size_field (zero_crc_self blk) = gpt_size_field blk.
Proof.
  unfold gpt_size_field, zero_crc_self, OFF_GPT_SIZE.
  now rewrite !le32_poke_other by lia.
Qed.

Lemma zero_crc_self_nth (blk : list byte) (i : nat) :
  (i < 16 \/ 20 <= i)%nat ->
  nth i (zero_crc_self blk) x00 = nth i blk x00.
Proof.
  intros H. unfold zero_crc_self. now rewrite !nth_poke_other by lia.
Qed.

Lemma signature_poke (blk : list byte) (i : nat) (b : byte) :
  (8 <= i)%nat ->
  memcmp0 (poke blk i b) 0 GPT_SIGNATURE = memcmp0 blk 0 GPT_SIGNATURE.
Proof.
  intros H. unfold memcmp0, slice. cbn [skipn].
  rewrite firstn_poke, poke_outside; [reflexivity |].
  rewrite length_firstn. change (length GPT_SIGNATURE) with 8%nat. lia.
Qed.

(** The header check, once the signature matches and the CRC window lies
    inside the block. *)
Lemma gpt_header_check_window (blk : list byte) (n : nat) :
  memcmp0 blk 0 GPT_SIGNATURE = true ->
  gpt_size_field blk = Z.of_nat n -> (n <= length blk)%nat ->
  gpt_header_check blk =
  let crc := crc32 (firstn n (zero_crc_self blk)) in
  if crc =? gpt_crc_self blk then inr (zero_crc_self blk)
  else inl (HeaderCrcMismatch (gpt_crc_self blk) crc).
Proof.
  intros Hsig Hsize Hn. unfold gpt_header_check.
  rewrite Hsig. cbn [negb].
  rewrite zero_crc_self_size, Hsize.
  rewrite crc32_mem_firstn by (rewrite zero_crc_self_length; exact Hn).
  cbv zeta. destruct (_ =? _); reflexivity.
Qed.

(** A window longer than the block runs the CRC loop off its end. *)
Lemma gpt_header_check_overrun (blk : list byte) :
  memcmp0 blk 0 GPT_SIGNATURE = true ->
  Z.of_nat (length blk) < gpt_size_field blk ->
  gpt_header_check blk = inl GptReadOutOfBlock.
Proof.
  intros Hsig Hsize. unfold gpt_header_check.
  rewrite Hsig. cbn [negb].
  rewrite crc32_mem_overrun; [reflexivity |].
  now rewrite zero_crc_self_length, zero_crc_self_size.
Qed.

(** C3, amended.  Take a 512-byte header block with a valid signature
    whose stored CRC is the CRC32 of its first [header.size] bytes with
    the CRC field zeroed.  Changing one byte that lies inside that CRC
    window and outside the signature, the size field and the CRC field
    gives a block the decoder rejects with [HeaderCrcMismatch], reporting
    the stored CRC and a different computed one. *)
Theorem header_crc_detects_change (blk : list byte) (i : nat) (b : byte) :
  length blk = 512%nat ->
  memcmp0 blk 0 GPT_SIGNATURE = true ->
  crc32_mem (zero_crc_self blk) (gpt_size_field blk)
    = Some (gpt_crc_self blk) ->
  Z.of_nat i < gpt_size_field blk ->
  (8 <= i < 12 \/ 20 <= i)%nat ->
  nth i blk x00 <> b ->
  exists crc,
    crc <> gpt_crc_self blk
    /\ gpt_header_check (poke blk i b)
       = inl (HeaderCrcMismatch (gpt_crc_self blk) crc).
Proof.
  intros Hlen Hsig Hcrc Hi Hrange Hb.
  assert (Hsz : gpt_size_field blk <= 512).
  { destruct (Z_le_gt_dec (gpt_size_field blk) 512) as [L | G]; [exact L |].
    rewrite crc32_mem_overrun in Hcrc; [discriminate |].
    rewrite zero_crc_self_length, Hlen. lia. }
  pose proof (le32_nonneg blk OFF_GPT_SIZE) as Hnn.
  fold (gpt_size_field blk) in Hnn.
  remember (Z.to_nat (gpt_size_field blk)) as n eqn:Hn.
  assert (Hsize : gpt_size_field blk = Z.of_nat n) by lia.
  assert (Hn512 : (n <= 512)%nat) by lia.
  assert (Hin : (i < n)%nat) by lia.
  clear Hn Hsz Hnn Hi.
  rewrite Hsize, crc32_mem_firstn in Hcrc
    by (rewrite zero_crc_self_length, Hlen; exact Hn512).
  injection Hcrc as Hcrc.
  assert (Hself : gpt_crc_self (poke blk i b) = gpt_crc_self blk)
    by (apply le32_poke_other; unfold OFF_GPT_CRC_SELF; lia).
  assert (Hsize' : gpt_size_field (poke blk i b) = Z.of_nat n)
    by (rewrite <- Hsize; apply le32_poke_other; unfold OFF_GPT_SIZE; lia).
  rewrite (gpt_header_check_window (poke blk i b) n);
    [| now rewrite signature_poke by lia
     | exact Hsize'
     | now rewrite poke_length, Hlen ].
  cbv zeta. rewrite Hself, zero_crc_self_poke, firstn_poke by lia.
  set (m := firstn n (zero_crc_self blk)) in *.
  assert (Hm : (i < length m)%nat).
  { unfold m. rewrite length_firstn, zero_crc_self_length, Hlen. lia. }
  destruct (poke_split m i b Hm) as [E1 E2].
  assert (Hx : nth i m x00 = nth i blk x00).
  { unfold m. rewrite nth_firstn.
    destruct (Nat.ltb_spec i n); [| lia].
    apply zero_crc_self_nth. lia. }
  rewrite Hx in E1.
  assert (Hne : crc32 (poke m i b) <> gpt_crc_self blk).
  { rewrite <- Hcrc, E2.
    set (pre := firstn i m) in *. set (suf := skipn (S i) m) in *.
    assert (Hd : crc32 (pre ++ b :: suf)
                 <> crc32 (pre ++ nth i blk x00 :: suf))
      by (apply crc32_one_byte; congruence).
    now rewrite <- E1 in Hd. }
  exists (crc32 (poke m i b)). split; [exact Hne |].
  destruct (Z.eqb_spec (crc32 (poke m i b)) (gpt_crc_self blk)); [easy |].
  reflexivity.
Qed.


Lemma header_crc_detects_change_witness :
  exists crc,
    crc <> gpt_crc_self gpt_block_92
    /\ gpt_header_check (poke gpt_block_92 50 x01)
       = inl (HeaderCrcMismatch (gpt_crc_self gpt_block_92) crc).
Proof.
  apply (header_crc_detects_change gpt_block_92 50 x01).
  - vm_compute; reflexivity.
  - vm_compute; reflexivity.
  - vm_compute; reflexivity.
  - vm_compute; reflexivity.
  - right. apply Nat.leb_le. vm_compute; reflexivity.
  - vm_compute; discriminate.
Defined.

(** C3, as stated, fails on a well-formed 92-byte header: a changed
    signature byte is rejected with [BadSignature], not with
    [HeaderCrcMismatch]; a changed byte of the block past [header.size]
    is not rejected at all; and a changed byte of the size field moves the
    CRC window, after which the stored CRC can match again. *)
Lemma header_change_not_always_crc_mismatch :
  length gpt_block_92 = 512%nat
  /\ memcmp0 gpt_block_92 0 GPT_SIGNATURE = true
  /\ gpt_size_field gpt_block_92 = 92
  /\ crc32_mem (zero_crc_self gpt_block_92) (gpt_size_field gpt_block_92)
     = Some (gpt_crc_self gpt_block_92)
  /\ nth 0 gpt_block_92 x00 <> x00
  /\ gpt_header_check (poke gpt_block_92 0 x00) = inl BadSignature
  /\ nth 100 gpt_block_92 x00 <> x01
  /\ gpt_header_check (poke gpt_block_92 100 x01)
     = inr (zero_crc_self (poke gpt_block_92 100 x01))
  /\ gpt_header_check gpt_block_92_tail
     = inr (zero_crc_self gpt_block_92_tail)
  /\ nth 12 gpt_block_92_tail x00 <> x60
  /\ gpt_header_check (poke gpt_block_92_tail 12 x60)
     = inr (zero_crc_self (poke gpt_block_92_tail 12 x60)).
Proof. by_evaluation. Qed.

(** C9.  The CRC window length is the header's own size field and is not
    held against the 512 bytes read: there is a 512-byte block with a valid
    signature and a size field of 513 on which the CRC loop reads past the
    end of the block. *)
Theorem crc_window_exceeds_block :
  exists blk : list byte,
    length blk = GPT_BLOCK_SIZE
    /\ memcmp0 blk 0 GPT_SIGNATURE = true
    /\ gpt_size_field blk = 513
    /\ crc32_mem (zero_crc_self blk) (gpt_size_field blk) = None
    /\ gpt_header_check blk = inl GptReadOutOfBlock.
Proof. exists gpt_block_513. by_evaluation. Qed.

End GptFacts.

(** ** GPT entry names *)

Module GptNameFacts.
Import NvTegraParts.

Lemma cstring_app_null (a b : list byte) :
  In x00 a -> cstring (a ++ b) = cstring a.
Proof.
  induction a as [| h t IH]; intros H; [contradiction |].
  cbn [app cstring]. destruct (Byte.eqb h x00) eqn:E; [reflexivity |].
  f_equal. apply IH. destruct H as [H | H]; [| exact H].
  subst h. discriminate.
Qed.

(** What follows the text does not matter to what precedes it. *)
Lemma cstring_app_congr (a b1 b2 : list byte) :
  cstring b1 = cstring b2 -> cstring (a ++ b1) = cstring (a ++ b2).
Proof.
  intros H. induction a as [| h t IH]; cbn [app cstring]; [exact H |].
  destruct (Byte.eqb h x00); [reflexivity | now rewrite IH].
Qed.

(** Cutting behind a null byte changes nothing of the text. *)
Lemma cstring_firstn_app_null (a b : list byte) :
  In x00 a ->
  forall n : nat,
  cstring (firstn n (a ++ b) ++ [x00]) = cstring (firstn n a ++ [x00]).
Proof.
  induction a as [| h t IH]; intros H n; [contradiction |].
  destruct n as [| n]; [reflexivity |].
  cbn [app firstn cstring].
  destruct (Byte.eqb h x00) eqn:E; [reflexivity |].
  f_equal. apply IH. destruct H as [H | H]; [| exact H].
  subst h. discriminate.
Qed.

Lemma before_null_split (u : list Z) :
  exists rest, u = before_null u ++ rest
               /\ (rest = [] \/ exists r, rest = 0 :: r).
Proof.
  induction u as [| c t (rest & E & H)].
  - exists []. split; [reflexivity | now left].
  - cbn [before_null]. destruct (Z.eqb_spec c 0) as [-> | NE].
    + exists (0 :: t). split; [reflexivity | right; now exists t].
    + exists rest. split; [cbn [app]; now rewrite <- E | exact H].
Qed.

Lemma firstn_le_eq {A : Type} (k n : nat) (a b : list A) :
  (k <= n)%nat -> firstn n a = firstn n b -> firstn k a = firstn k b.
Proof.
  intros Hk E.
  rewrite <- (Nat.min_l k n Hk), <- !firstn_firstn. now rewrite E.
Qed.

Section Decoder.
Variable mbstate : Type.
Variable mbrlen_null : mbstate -> option mbstate.
Variable c16rtomb : mbstate -> Z -> option (list byte) * mbstate.
Variable MB_CUR_MAX : nat.
Variable mbs_auto : mbstate.

(** What C11 (7.28.1.2 with 7.29.6.3.3) says of the null character: when
    [c16rtomb] stores bytes for it, a null byte is among them. *)
Hypothesis c16rtomb_null :
  forall st mb st', c16rtomb st 0 = (Some mb, st') -> mb = [] \/ In x00 mb.

Local Abbreviation loop := (c16_loop mbstate c16rtomb MB_CUR_MAX).
Local Abbreviation stream := (conv_stream mbstate c16rtomb MB_CUR_MAX).

(** The loop against the conversion of the units: while the array has as
    many units left as the destination has room, the loop returns what
    was stored before, followed by the conversion of the units, cut at the
    limit. *)
Lemma c16_loop_stream (buf : list Z) (lim : Z) :
  forall (mbs : mbstate) (str : list byte),
  Z.of_nat (length str) < lim ->
  lim - Z.of_nat (length str) <= Z.of_nat (length buf) ->
  loop buf mbs str lim
  = Some (firstn (Z.to_nat lim) (str ++ stream buf mbs)).
Proof.
  induction buf as [| c buf IH]; intros mbs str Hpos Hlen;
    cbn [c16_loop conv_stream].
  - cbn [length] in Hlen. lia.
  - assert (Hstr : firstn (Z.to_nat lim) (str ++ []) = str)
      by (rewrite app_nil_r; apply firstn_all2; lia).
    destruct (c16rtomb mbs c) as [[mb |] mbs']; [| now rewrite Hstr].
    destruct (Nat.eqb_spec (length mb) 0) as [E0 | N0]; cbn [orb];
      [now rewrite Hstr |].
    destruct (MB_CUR_MAX <? length mb)%nat; [now rewrite Hstr |].
    clear Hstr.
    set (room := Z.to_nat (lim - Z.of_nat (length str))).
    assert (Hcut : firstn (Z.to_nat lim) (str ++ mb ++ stream buf mbs')
                   = str ++ firstn room (mb ++ stream buf mbs')).
    { rewrite firstn_app, firstn_all2 by lia.
      f_equal. f_equal. unfold room. lia. }
    rewrite Hcut, firstn_app.
    destruct (Z.leb_spec lim (Z.of_nat (length (str ++ firstn room mb))))
      as [L | G].
    + rewrite length_app, length_firstn in L.
      replace (room - length mb)%nat with 0%nat by (unfold room in *; lia).
      cbn [firstn]. now rewrite app_nil_r.
    + rewrite length_app, length_firstn in G.
      assert (Hall : firstn room mb = mb)
        by (apply firstn_all2; unfold room in *; lia).
      rewrite Hall in *. rewrite IH.
      * rewrite <- app_assoc, Hcut, firstn_app, Hall. reflexivity.
      * rewrite length_app. lia.
      * rewrite length_app. cbn [length] in Hlen. lia.
Qed.

(** Every unit that is converted gives at least one byte, so the first
    [n] bytes of the conversion come from the first [n] units. *)
Lemma conv_stream_firstn (units : list Z) :
  forall (n : nat) (mbs : mbstate),
  firstn n (stream (firstn n units) mbs) = firstn n (stream units mbs).
Proof.
  induction units as [| c t IH]; intros n mbs.
  - now rewrite firstn_nil.
  - destruct n as [| n]; [reflexivity |].
    change (firstn (S n) (c :: t)) with (c :: firstn n t).
    cbn [conv_stream].
    destruct (c16rtomb mbs c) as [[mb |] mbs']; [| reflexivity].
    destruct (Nat.eqb_spec (length mb) 0) as [E0 | N0]; cbn [orb];
      [reflexivity |].
    destruct (MB_CUR_MAX <? length mb)%nat; [reflexivity |].
    rewrite !firstn_app. f_equal.
    apply (firstn_le_eq _ n); [lia | apply IH].
Qed.

(** Up to the first null unit and that unit itself: nothing behind it
    shows in the text. *)
Lemma conv_stream_text_null (p r : list Z) :
  forall (mbs : mbstate) (n : nat),
  cstring (firstn n (stream (p ++ 0 :: r) mbs) ++ [x00])
  = cstring (firstn n (stream (p ++ [0]) mbs) ++ [x00]).
Proof.
  induction p as [| c p IH]; intros mbs n; cbn [app conv_stream].
  - destruct (c16rtomb mbs 0) as [[mb |] mbs'] eqn:Hc; [| reflexivity].
    destruct (Nat.eqb_spec (length mb) 0) as [E0 | N0]; cbn [orb];
      [reflexivity |].
    destruct (MB_CUR_MAX <? length mb)%nat; [reflexivity |].
    assert (Hnull : In x00 mb).
    { destruct (c16rtomb_null _ _ _ Hc) as [-> | H]; [easy | exact H]. }
    now rewrite !cstring_firstn_app_null.
  - destruct (c16rtomb mbs c) as [[mb |] mbs']; [| reflexivity].
    destruct ((length mb =? 0) || (MB_CUR_MAX <? length mb))%nat;
      [reflexivity |].
    rewrite !firstn_app, <- !app_assoc.
    apply cstring_app_congr, IH.
Qed.


End Decoder.



End GptNameFacts.

(** ** Configuration block *)

Module ConfigBlockFacts.
Import ConfigBlock BufferFacts.

Lemma tag_at_inside (cb : list byte) (off : Z) (tag : toradex_tag) :
  tag_at cb off = Some tag ->
  0 <= off /\ off + 4 <= Z.of_nat (length cb) /\ 0 <= len tag.
Proof.
  unfold tag_at, read_bytes. cbn [Z.of_nat Pos.of_succ_nat Pos.succ].
  destruct (Z.leb_spec 0 off); cbn [andb]; [| discriminate].
  destruct (Z.leb_spec (off + 4) (Z.of_nat (length cb))); [| discriminate].
  intros E. injection E as <-. cbn [len].
  repeat split; try assumption.
  apply Z.land_nonneg. right. lia.
Qed.

(** The walk stops inside its fuel: with [fuel] iterations left and fewer
    than [4 * fuel] bytes between the cursor and the end of the block, it
    ends by a cleared valid flag or by leaving the block. *)
Lemma tag_walk_fuel (fuel : nat) :
  forall (cb : list byte) (off : Z) (d : decoded),
  (1 <= fuel)%nat ->
  Z.of_nat (length cb) < off + 4 * Z.of_nat fuel ->
  tag_walk fuel cb off d <> FuelExhausted.
Proof.
  induction fuel as [| fuel IH]; intros cb off d H1 Hlen; [lia |].
  cbn [tag_walk].
  destruct (tag_at cb off) as [tag |] eqn:Htag; [| discriminate].
  apply tag_at_inside in Htag. destruct Htag as (H0 & Hin & Hl).
  destruct (negb (flags tag =? TAG_FLAG_VALID)); [discriminate |].
  assert (Hf : (1 <= fuel)%nat) by lia.
  assert (Hnext : Z.of_nat (length cb)
                  < off + 4 + len tag * 4 + 4 * Z.of_nat fuel) by lia.
  destruct (id tag =? TAG_MAC).
  - destruct (read_bytes cb (off + 4) 6); [| discriminate]. now apply IH.
  - destruct (id tag =? TAG_HW).
    + destruct (read_bytes cb (off + 4) 8); [| discriminate]. now apply IH.
    + now apply IH.
Qed.

Lemma tag_walk_not_absent (fuel : nat) :
  forall (cb : list byte) (off : Z) (d : decoded),
  tag_walk fuel cb off d <> NoConfigBlock.
Proof.
  induction fuel as [| fuel IH]; intros cb off d; cbn [tag_walk];
    [discriminate |].
  destruct (tag_at cb off) as [tag |]; [| discriminate].
  destruct (negb (flags tag =? TAG_FLAG_VALID)); [discriminate |].
  destruct (id tag =? TAG_MAC).
  - destruct (read_bytes cb (off + 4) 6); [apply IH | discriminate].
  - destruct (id tag =? TAG_HW).
    + destruct (read_bytes cb (off + 4) 8); [apply IH | discriminate].
    + apply IH.
Qed.

(** On a 512-byte block the decoder always comes to an end. *)
Lemma decode_block_fuel (cb : list byte) :
  (length cb <= 512)%nat -> decode_block cb <> FuelExhausted.
Proof.
  intros H. unfold decode_block.
  destruct (tag_at cb 0) as [tag |]; [| discriminate].
  destruct (_ && _); [discriminate |].
  apply tag_walk_fuel; lia.
Qed.

(** The sentinel test as the code has it: the block counts as absent only
    when the flags are wrong and the id is wrong as well. *)
Lemma decode_block_absent_iff (cb : list byte) (tag : toradex_tag) :
  tag_at cb 0 = Some tag ->
  (decode_block cb = NoConfigBlock
   <-> flags tag <> TAG_FLAG_VALID /\ id tag <> TAG_VALID).
Proof.
  intros Htag. unfold decode_block. rewrite Htag.
  destruct (Z.eqb_spec (flags tag) TAG_FLAG_VALID);
    destruct (Z.eqb_spec (id tag) TAG_VALID); cbn [negb andb]; split;
    try tauto; try (intros H; now apply tag_walk_not_absent in H).
Qed.

(** A read that delivers fewer than 512 bytes is an [IoError]. *)
Lemma short_read_io_error (sys : syscalls) (pos : Z) (blk data : list byte) :
  open_ok sys = true -> lseek_pos sys = Some pos ->
  malloc_block sys = Some blk ->
  read_res sys = ReadBytes data -> (length data < 512)%nat ->
  read_config_block sys = IoError (Z.of_nat (length data)).
Proof.
  intros Ho Hs Hm Hr Hl. unfold read_config_block.
  rewrite Ho, Hs, Hm, Hr. cbn [negb read_ret].
  unfold SIZE_BITS, TRDX_CFG_BLOCK_MAX_SIZE.
  rewrite Z.mod_small by lia.
  destruct (Z.ltb_spec (Z.of_nat (length data)) 512); [reflexivity | lia].
Qed.

(** A failed read is not: -1 becomes the largest [size_t], and the block
    is decoded from whatever the allocation held. *)
Lemma failed_read_decodes (sys : syscalls) (pos : Z) (blk : list byte) :
  open_ok sys = true -> lseek_pos sys = Some pos ->
  malloc_block sys = Some blk -> read_res sys = ReadFailed ->
  read_config_block sys = decode_block blk.
Proof.
  intros Ho Hs Hm Hr. unfold read_config_block.
  rewrite Ho, Hs, Hm, Hr. reflexivity.
Qed.

(** C2: evaluation at the failing inputs.  A block whose first tag is
    flagged valid but carries id 0, and one whose first tag carries id
    0xcf01 with the valid flag clear, are both taken for configuration
    blocks: the tag walk is entered and decodes the hardware tag. *)
Theorem sentinel_needs_only_one_of_two :
  tag_at block_wrong_id 0 = Some {| len := 0; flags := 1; id := 0 |}
  /\ read_config_block (full_read block_wrong_id)
     = Decoded {| hw := hw_27; eth_addr := {| oui := 0; nic := 0 |};
                  serial := 0; unknown_tags := [] |}
  /\ tag_at block_wrong_flags 0
     = Some {| len := 0; flags := 0; id := TAG_VALID |}
  /\ read_config_block (full_read block_wrong_flags)
     = Decoded {| hw := hw_27; eth_addr := {| oui := 0; nic := 0 |};
                  serial := 0; unknown_tags := [] |}.
Proof. by_evaluation. Qed.

(** C8: evaluation at the failing input.  When [read] fails (-1) the
    length test does not fire: the run goes on to examine the tags of the
    unread allocation and returns 0.  A read of 100 bytes, in contrast, is
    an [IoError]. *)
Theorem failed_read_goes_undetected :
  read_ret (read_res failed_read) = -1
  /\ read_config_block failed_read
     = Decoded {| hw := hw_27; eth_addr := {| oui := 0; nic := 0 |};
                  serial := 0; unknown_tags := [] |}
  /\ ret_of (read_config_block failed_read) = Some 0
  /\ read_config_block short_read = IoError 100.
Proof. by_evaluation. Qed.

(** C10.  The tag walk does not hold its cursor against the block size.
    On a 512-byte block whose valid tag at offset 4 has length 126 the
    cursor reaches 4 + 4 + 126 * 4 = 512 and the next tag header is read
    there, outside the block; on a 512-byte block with a valid MAC tag
    header at offset 508 the 6-byte payload is read at offset 512. *)
Theorem tag_walk_leaves_block :
  (length block_cursor_512 = 512%nat
   /\ tag_at block_cursor_512 0
      = Some {| len := 0; flags := 1; id := TAG_VALID |}
   /\ tag_at block_cursor_512 4
      = Some {| len := 126; flags := 1; id := 0x1234 |}
   /\ tag_at block_cursor_512 (4 + 4 + 126 * 4) = None
   /\ read_config_block (full_read block_cursor_512) = ReadOutOfBlock 512)
  /\ (length block_mac_at_508 = 512%nat
      /\ tag_at block_mac_at_508 508
         = Some {| len := 0; flags := 1; id := TAG_MAC |}
      /\ read_bytes block_mac_at_508 (508 + 4) 6 = None
      /\ read_config_block (full_read block_mac_at_508)
         = ReadOutOfBlock 512).
Proof. by_evaluation. Qed.

End ConfigBlockFacts.

(** * Further properties *)

(** ** CRC32: what a checksum mismatch can and cannot miss *)

Module Crc32More.
Import Crc32 Crc32Facts.

(** X1.  Two byte sequences of the same length that differ in exactly one
    position never have the same CRC32. *)
Theorem crc32_single_byte_error (pre suf : list byte) (b1 b2 : byte) :
  b1 <> b2 -> crc32 (pre ++ b1 :: suf) <> crc32 (pre ++ b2 :: suf).
Proof.
  intros Hb E. apply Hb. unfold crc32 in E. apply lxor_cancel_r in E.
  rewrite !fold_left_app in E. cbn [fold_left] in E.
  assert (Hpre : u32 (fold_left crc_step pre 0xFFFFFFFF))
    by (apply fold_crc_step_range; unfold u32; lia).
  apply fold_crc_step_inj in E; try (apply crc_step_range; exact Hpre).
  apply crc_step_inj_byte in E; assumption.
Qed.

Lemma crc32_single_byte_error_witness :
  crc32 ([x31; x32] ++ x33 :: [x34]) <> crc32 ([x31; x32] ++ x34 :: [x34]).
Proof. apply crc32_single_byte_error. discriminate. Defined.

(** X2.  [crc32(buf, len)] reads exactly the first [len] bytes of the
    object: it runs past the end precisely when [len] exceeds the object's
    size, and otherwise returns the CRC32 of the first [len] bytes, so that
    bytes from offset [len] on have no influence. *)
Theorem crc32_mem_window (buf : list byte) (len : Z) :
  0 <= len ->
  (crc32_mem buf len = None <-> Z.of_nat (length buf) < len)
  /\ (len <= Z.of_nat (length buf) ->
      crc32_mem buf len = Some (crc32 (firstn (Z.to_nat len) buf))).
Proof.
  intros H0.
  assert (Hin : len <= Z.of_nat (length buf) ->
                crc32_mem buf len = Some (crc32 (firstn (Z.to_nat len) buf))).
  { intros Hle. rewrite <- (Z2Nat.id len) at 1 by exact H0.
    apply crc32_mem_firstn. lia. }
  split; [| exact Hin]. split.
  - intros HN. destruct (Z_lt_ge_dec (Z.of_nat (length buf)) len) as [L | G];
      [exact L |]. rewrite Hin in HN by lia. discriminate.
  - apply crc32_mem_overrun.
Qed.

Lemma crc32_mem_window_witness :
  crc32_mem check_string 4 = Some (crc32 [x31; x32; x33; x34]).
Proof.
  assert (H0 : 0 <= 4) by lia.
  apply (proj2 (crc32_mem_window check_string 4 H0)).
  vm_compute; discriminate.
Defined.

(** X3.  The register never leaves 32 bits: the CRC32 of any byte sequence
    is a value in [0, 2^32). *)
Theorem crc32_is_u32 (bs : list byte) : 0 <= crc32 bs < 2 ^ 32.
Proof.
  unfold crc32. apply lxor_range; [lia | | lia].
  apply fold_crc_step_range. unfold u32. lia.
Qed.

(** *** A message followed by its own checksum *)

Lemma b2z_z2b (v : Z) : b2z (z2b v) = v mod 256.
Proof.
  unfold b2z, z2b.
  pose proof (Z.mod_pos_bound v 256 ltac:(lia)) as Hr.
  destruct (Byte.of_N (Z.to_N (v mod 256))) as [b |] eqn:E.
  - apply Byte.to_of_N in E. rewrite E. apply Z2N.id. lia.
  - apply Byte.of_N_None_iff in E. lia.
Qed.

Lemma crc_step_z2b (c v : Z) :
  crc_step c (z2b v) =
  Z.lxor (tab (Z.land (Z.lxor c v) 0xFF)) (Z.shiftr c 8).
Proof.
  unfold crc_step. rewrite b2z_z2b. f_equal. f_equal.
  rewrite !land_lxor_distr. f_equal.
  change 0xFF with (Z.ones 8). rewrite !Z.land_ones by lia.
  change (2 ^ 8) with 256. now rewrite Z.mod_mod by lia.
Qed.

(** One step on a register of the form [K xor (R >> j)] fed with byte [j/8]
    of [R xor F]: [R] cancels out of the table index. *)
Lemma crc_step_own_byte (K R F j : Z) :
  0 <= j ->
  crc_step (Z.lxor K (Z.shiftr R j)) (z2b (Z.shiftr (Z.lxor R F) j)) =
  Z.lxor (Z.lxor (tab (Z.land (Z.lxor K (Z.shiftr F j)) 0xFF))
                 (Z.shiftr K 8))
         (Z.shiftr R (j + 8)).
Proof.
  intros Hj. rewrite crc_step_z2b.
  rewrite !Z.shiftr_lxor, Z.shiftr_shiftr by lia.
  replace (Z.lxor (Z.lxor K (Z.shiftr R j))
                  (Z.lxor (Z.shiftr R j) (Z.shiftr F j)))
    with (Z.lxor K (Z.shiftr F j)).
  - now rewrite Z.lxor_assoc.
  - rewrite Z.lxor_assoc, <- (Z.lxor_assoc (Z.shiftr R j)).
    now rewrite Z.lxor_nilpotent, Z.lxor_0_l.
Qed.

(** X4.  Appending to a byte sequence its own CRC32, low byte first, gives
    a sequence whose CRC32 is the constant 0x2144DF1C, whatever the
    sequence was. *)
Theorem crc32_residue (bs : list byte) :
  crc32 (bs ++ le32_bytes (crc32 bs)) = 0x2144DF1C.
Proof.
  unfold crc32 at 1. rewrite fold_left_app. unfold crc32, le32_bytes.
  set (R := fold_left crc_step bs 0xFFFFFFFF).
  assert (HR : u32 R) by (apply fold_crc_step_range; unfold u32; lia).
  cbn [fold_left].
  rewrite <- (Z.lxor_0_l R) at 1. rewrite <- (Z.shiftr_0_r R) at 1.
  rewrite <- (Z.shiftr_0_r (Z.lxor R 0xFFFFFFFF)) at 1.
  rewrite (crc_step_own_byte 0 R 0xFFFFFFFF 0) by lia.
  set (K1 := Z.lxor (tab _) _). vm_compute in K1. subst K1.
  rewrite (crc_step_own_byte _ R 0xFFFFFFFF (0 + 8)) by lia.
  set (K2 := Z.lxor (tab _) _). vm_compute in K2. subst K2.
  rewrite (crc_step_own_byte _ R 0xFFFFFFFF (0 + 8 + 8)) by lia.
  set (K3 := Z.lxor (tab _) _). vm_compute in K3. subst K3.
  rewrite (crc_step_own_byte _ R 0xFFFFFFFF (0 + 8 + 8 + 8)) by lia.
  set (K4 := Z.lxor (tab _) _). vm_compute in K4. subst K4.
  change (0 + 8 + 8 + 8 + 8) with 32.
  rewrite (Z.shiftr_div_pow2 R 32), Z.div_small by (unfold u32 in HR; lia).
  reflexivity.
Qed.

End Crc32More.

(** ** Words as sums of bytes *)

Module WordFacts.
Import Crc32Facts.

Lemma land_low_high (a c n : Z) :
  0 <= n -> 0 <= a < 2 ^ n -> Z.land a (Z.shiftl c n) = 0.
Proof.
  intros Hn Ha. apply Z.bits_inj'; intros k Hk.
  rewrite Z.land_spec, Z.bits_0.
  destruct (Z_lt_ge_dec k n) as [L | G].
  - rewrite Z.shiftl_spec_low by lia. apply andb_false_r.
  - rewrite <- (Z.mod_small a (2 ^ n)) by lia.
    now rewrite Z.mod_pow2_bits_high by lia.
Qed.

(** A value below [2^n] or-ed with a multiple of [2^n] is their sum. *)
Lemma lor_low_high (a c n : Z) :
  0 <= n -> 0 <= a < 2 ^ n -> Z.lor a (c * 2 ^ n) = a + c * 2 ^ n.
Proof.
  intros Hn Ha. rewrite <- Z.shiftl_mul_pow2 by lia.
  pose proof (land_low_high a c n Hn Ha) as H0.
  rewrite <- Z.lxor_lor by exact H0.
  symmetry. apply Z.add_nocarry_lxor. exact H0.
Qed.

Lemma lor_high_low (a c n : Z) :
  0 <= n -> 0 <= a < 2 ^ n -> Z.lor (c * 2 ^ n) a = c * 2 ^ n + a.
Proof. intros. rewrite Z.lor_comm, lor_low_high by assumption. lia. Qed.

Lemma le16_sum (l : list byte) (o : nat) :
  le16 l o = byte_at l o + byte_at l (o + 1) * 2 ^ 8.
Proof.
  unfold le16. rewrite Z.shiftl_mul_pow2 by lia.
  apply lor_low_high; [lia |]. unfold byte_at. apply b2z_range.
Qed.

Lemma le24_sum (l : list byte) (o : nat) :
  ConfigBlock.le24 l o
  = byte_at l o + byte_at l (o + 1) * 2 ^ 8 + byte_at l (o + 2) * 2 ^ 16.
Proof.
  unfold ConfigBlock.le24. rewrite !Z.shiftl_mul_pow2 by lia.
  pose proof (b2z_range (nth o l x00)).
  pose proof (b2z_range (nth (o + 1) l x00)).
  unfold byte_at in *.
  rewrite (lor_low_high _ _ 8) by lia.
  rewrite (lor_low_high _ _ 16) by lia. reflexivity.
Qed.

Lemma le32_sum (l : list byte) (o : nat) :
  le32 l o
  = byte_at l o + byte_at l (o + 1) * 2 ^ 8 + byte_at l (o + 2) * 2 ^ 16
    + byte_at l (o + 3) * 2 ^ 24.
Proof.
  unfold le32. rewrite !Z.shiftl_mul_pow2 by lia.
  pose proof (b2z_range (nth o l x00)).
  pose proof (b2z_range (nth (o + 1) l x00)).
  pose proof (b2z_range (nth (o + 2) l x00)).
  pose proof (b2z_range (nth (o + 3) l x00)).
  unfold byte_at in *.
  rewrite (lor_low_high _ _ 8) by lia.
  rewrite (lor_low_high _ _ 24) by lia.
  replace (b2z (nth (o + 2) l x00) * 2 ^ 16
           + b2z (nth (o + 3) l x00) * 2 ^ 24)
    with ((b2z (nth (o + 2) l x00) + b2z (nth (o + 3) l x00) * 2 ^ 8)
          * 2 ^ 16) by lia.
  rewrite (lor_low_high _ _ 16) by lia. lia.
Qed.

End WordFacts.


(** ** Partition table: bounds, short input, the GPT locator *)

Module PartitionTableMore.
Import NvTegraParts PartitionTableFacts.

(** What a successful parse implies about the header and record 0. *)
Lemma parse_success_inv (file : list byte) (evs : list event)
    (gpt : option (nat * nvtegra_partinfo)) :
  parse_partition_table file = (evs, inr gpt) ->
  (MAX_SIZE <= length file)%nat
  /\ pt_version (pt_buffer file) = PT_VERSION
  /\ bct_ok (partition (pt_buffer file) 0).
Proof.
  intros P.
  destruct (Nat.lt_ge_cases (length file) MAX_SIZE) as [Hs | Hl].
  { rewrite parse_short in P by exact Hs. discriminate. }
  destruct (Z.eq_dec (pt_version (pt_buffer file)) PT_VERSION) as [E | NE].
  2:{ rewrite parse_bad_version in P by assumption. discriminate. }
  repeat split; try assumption; apply bct_checks_iff;
    rewrite (parse_good_version file Hl E) in P; cbv zeta in P;
    destruct (bct_checks (partition (pt_buffer file) 0));
    try reflexivity; discriminate.
Qed.

Lemma stop_index_le_max (buf : list byte) : stop_index buf <= 24.
Proof. unfold stop_index, MAX_NUM_PARTS. lia. Qed.

Lemma in_records (buf : list byte) (a n i : nat) (p : nvtegra_partinfo) :
  In (i, p) (records buf a n) ->
  p = partition buf i /\ (a <= i < a + n)%nat.
Proof.
  unfold records. intros H. apply in_map_iff in H.
  destruct H as (j & E & Hj). injection E as <- <-.
  apply in_seq in Hj. split; [reflexivity | exact Hj].
Qed.

(** [find] over a run of indices returns the first hit. *)
Lemma find_seq_first (P : nat -> bool) (n : nat) :
  forall (a j : nat), find P (seq a n) = Some j ->
  forall i : nat, (a <= i < j)%nat -> P i = false.
Proof.
  induction n as [| n IH]; intros a j F i Hi; cbn [seq find] in F;
    [discriminate |].
  destruct (P a) eqn:Pa.
  - injection F as <-. lia.
  - destruct (Nat.eq_dec i a) as [-> | NE]; [exact Pa |].
    apply (IH (S a) j F). lia.
Qed.

(** Below the stop index every id is in range. *)
Lemma below_stop_index_valid (buf : list byte) (i : nat) :
  Z.of_nat i < stop_index buf -> id (partition buf i) < 128.
Proof.
  unfold stop_index, first_invalid. intros H.
  destruct (find (invalid_id buf) (seq 0 MAX_NUM_PARTS)) as [j |] eqn:F.
  - assert (Hi : invalid_id buf i = false)
      by (apply (find_seq_first _ _ _ _ F); lia).
    unfold invalid_id in Hi. lia.
  - assert (Hin : In i (seq 0 MAX_NUM_PARTS))
      by (apply in_seq; unfold MAX_NUM_PARTS in *; lia).
    pose proof (find_none _ _ F i Hin) as Hi.
    unfold invalid_id in Hi. lia.
Qed.



(** X6.  Whatever [num_parts] declares, a successful parse hands over at
    most 24 records; each of them is the record of the table at its
    index, and every record after record 0 lies below the declared count
    and has an id below 128. *)
Theorem handed_over_records_bounded (file : list byte) (evs : list event)
    (gpt : option (nat * nvtegra_partinfo)) :
  parse_partition_table file = (evs, inr gpt) ->
  (length (printed_records evs) <= 24)%nat
  /\ forall (i : nat) (p : nvtegra_partinfo),
       In (i, p) (printed_records evs) ->
       p = partition (pt_buffer file) i
       /\ (i < 24)%nat
       /\ (i = 0%nat
           \/ (Z.of_nat i < pt_num_parts (pt_buffer file) /\ id p < 128)).
Proof.
  intros P. destruct (parse_success_inv file evs gpt P) as (HL & HV & HB).
  destruct (parse_valid_records file HL HV HB) as (evs' & gpt' & P' & R).
  rewrite P in P'. injection P' as <- <-. clear P HL HV HB.
  rewrite R. clear R.
  generalize (pt_buffer file) as buf. intros buf.
  pose proof (stop_index_le_max buf) as Hmax.
  split.
  - cbn [length]. rewrite records_length. lia.
  - intros i p [E | Hin].
    + injection E as <- <-. repeat split; [lia | now left].
    + apply in_records in Hin. destruct Hin as [-> Hi].
      assert (Hlt : Z.of_nat i < stop_index buf) by lia.
      repeat split; [lia |]. right. split.
      * unfold stop_index in Hlt. lia.
      * now apply below_stop_index_valid.
Qed.

Lemma handed_over_records_bounded_witness :
  (length (printed_records (fst (parse_partition_table image_truncated)))
   <= 24)%nat.
Proof.
  apply (handed_over_records_bounded image_truncated _
           (Some (1%nat, partition (pt_buffer image_truncated) 1))).
  vm_compute; reflexivity.
Defined.

(** The locator the loop leaves behind is the last match among the
    records it handed over. *)
Lemma scan_partitions_locator (buf : list byte) (num_parts : Z)
    (idxs : list nat) :
  forall gpt : option (nat * nvtegra_partinfo),
  snd (scan_partitions buf num_parts idxs gpt) =
  last_gpt_record
    (printed_records (fst (scan_partitions buf num_parts idxs gpt))) gpt.
Proof.
  induction idxs as [| i idxs IH]; intros gpt; cbn [scan_partitions].
  - reflexivity.
  - destruct (Z.of_nat i <? num_parts); [| reflexivity].
    destruct (128 <=? id (partition buf i)); [reflexivity |].
    specialize (IH (if is_gpt_name (partition buf i)
                    then Some (i, partition buf i) else gpt)).
    destruct (scan_partitions buf num_parts idxs _) as [evs g].
    cbn [fst snd printed_records] in *. rewrite IH. reflexivity.
Qed.

(** The events of a successful parse, and its locator. *)
Lemma parse_success_shape (file : list byte) (evs : list event)
    (gpt : option (nat * nvtegra_partinfo)) :
  parse_partition_table file = (evs, inr gpt) ->
  exists evs',
    evs = [PrintHeader (pt_num_parts (pt_buffer file))
             (pt_table_size (pt_buffer file));
           PrintPartition 0 (partition (pt_buffer file) 0)] ++ evs'
    /\ gpt = last_gpt_record (printed_records evs') None.
Proof.
  intros P. destruct (parse_success_inv file evs gpt P) as (HL & HV & HB).
  rewrite (parse_good_version file HL HV) in P. cbv zeta in P.
  rewrite (proj2 (bct_checks_iff _) HB) in P.
  pose proof (scan_partitions_locator (pt_buffer file)
                (pt_num_parts (pt_buffer file))
                (seq 1 (MAX_NUM_PARTS - 1)) None) as Hloc.
  set (sc := scan_partitions (pt_buffer file) (pt_num_parts (pt_buffer file))
               (seq 1 (MAX_NUM_PARTS - 1)) None) in *.
  clearbody sc. clear HL HV HB.
  destruct sc as [evs' g]. cbn [fst snd] in *.
  exists evs'. split; congruence.
Qed.

Lemma bct_record_not_gpt (p : nvtegra_partinfo) :
  bct_ok p -> is_gpt_name p = false.
Proof.
  intros (_ & Hn & _). unfold is_gpt_name. rewrite Hn.
  destruct (bytes_eqb (firstn 3 PT_BCT_NAME) (firstn 3 PT_GPT_NAME)) eqn:E;
    [| reflexivity].
  apply bytes_eqb_eq in E. discriminate E.
Qed.

Lemma last_gpt_record_none (recs : list (nat * nvtegra_partinfo)) :
  forall init,
  last_gpt_record recs init = None <->
  init = None /\ forall r, In r recs -> is_gpt_name (snd r) = false.
Proof.
  induction recs as [| r recs IH]; intros init; cbn [In].
  - unfold last_gpt_record. cbn [fold_left]. firstorder.
  - unfold last_gpt_record. cbn [fold_left].
    fold (last_gpt_record recs
            (if is_gpt_name (snd r) then Some r else init)).
    rewrite IH. destruct (is_gpt_name (snd r)) eqn:Hr; split.
    + intros [E _]. discriminate.
    + intros [_ H]. specialize (H r (or_introl eq_refl)). congruence.
    + intros [E H]. split; [exact E |]. intros r' [<- | Hin]; auto.
    + intros [E H]. split; [exact E |]. intros r' Hin. apply H. now right.
Qed.

(** X7.  The GPT locator a successful parse returns is the last of the
    handed-over records whose two name fields both start with "GPT" (the
    fourth byte is not compared), and there is none exactly when no
    handed-over record is so named. *)
Theorem gpt_locator_is_last_match (file : list byte) (evs : list event)
    (gpt : option (nat * nvtegra_partinfo)) :
  parse_partition_table file = (evs, inr gpt) ->
  gpt = last_gpt_record (printed_records evs) None
  /\ (gpt = None <->
      forall r, In r (printed_records evs) -> is_gpt_name (snd r) = false).
Proof.
  intros P.
  destruct (parse_success_inv file evs gpt P) as (_ & _ & HB).
  apply bct_record_not_gpt in HB.
  destruct (parse_success_shape file evs gpt P) as (evs' & -> & ->).
  clear P. revert HB.
  generalize (partition (pt_buffer file) 0) as p0.
  generalize (pt_num_parts (pt_buffer file)) as a.
  generalize (pt_table_size (pt_buffer file)) as b.
  intros b a p0 H0.
  change (printed_records
            ([PrintHeader a b; PrintPartition 0 p0] ++ evs'))
    with ((0%nat, p0) :: printed_records evs').
  generalize (printed_records evs') as recs. intros recs.
  assert (E : last_gpt_record ((0%nat, p0) :: recs) None
              = last_gpt_record recs None).
  { unfold last_gpt_record. cbn [fold_left snd]. now rewrite H0. }
  split; [now rewrite E |].
  rewrite last_gpt_record_none. split.
  - intros [_ H] r [<- | Hin]; [exact H0 | now apply H].
  - intros H. split; [reflexivity |]. intros r Hin. apply H. now right.
Qed.

Lemma gpt_locator_is_last_match_witness :
  Some (1%nat, partition (pt_buffer image_three) 1)
  = last_gpt_record
      (printed_records (fst (parse_partition_table image_three))) None.
Proof.
  apply (gpt_locator_is_last_match image_three
           (fst (parse_partition_table image_three))).
  vm_compute; reflexivity.
Defined.

End PartitionTableMore.

(** ** GPT header: where it is read and what acceptance means *)

Module GptMore.
Import NvTegraParts Crc32 Crc32Facts BufferFacts GptFacts.

Lemma nth_poke_same (l : list byte) (i : nat) (b d : byte) :
  (i < length l)%nat -> nth i (poke l i b) d = b.
Proof.
  revert i; induction l as [| h t IH]; intros [| i] H; simpl in *;
    try lia; [reflexivity | apply IH; lia].
Qed.

Lemma byte_at_poke_same (l : list byte) (i : nat) (b : byte) :
  (i < length l)%nat -> byte_at (poke l i b) i = b2z b.
Proof. intros H. unfold byte_at. now rewrite nth_poke_same. Qed.

Lemma zero_crc_self_reads_zero (blk : list byte) :
  (20 <= length blk)%nat -> gpt_crc_self (zero_crc_self blk) = 0.
Proof.
  intros H. unfold gpt_crc_self, zero_crc_self, le32, OFF_GPT_CRC_SELF.
  change (16 + 1)%nat with 17%nat. change (16 + 2)%nat with 18%nat.
  change (16 + 3)%nat with 19%nat.
  rewrite (byte_at_poke_same _ 19) by (rewrite !poke_length; lia).
  rewrite (byte_at_poke_other _ 19 18), (byte_at_poke_same _ 18)
    by (rewrite ?poke_length; lia).
  rewrite (byte_at_poke_other _ 19 17), (byte_at_poke_other _ 18 17),
    (byte_at_poke_same _ 17) by (rewrite ?poke_length; lia).
  rewrite (byte_at_poke_other _ 19 16), (byte_at_poke_other _ 18 16),
    (byte_at_poke_other _ 17 16), (byte_at_poke_same _ 16)
    by (rewrite ?poke_length; lia).
  reflexivity.
Qed.

(** X8.  The header block is the last 512 bytes of the device, whatever
    comes before them; a device of fewer than 512 bytes fails at the seek
    and no byte of it is examined. *)
Theorem header_is_last_block (pre blk : list byte) :
  (length blk = GPT_BLOCK_SIZE ->
   locate_gpt_header (pre ++ blk) = gpt_header_check blk)
  /\ ((length blk < GPT_BLOCK_SIZE)%nat ->
      locate_gpt_header blk = inl GptSeekFailed).
Proof.
  unfold locate_gpt_header. split; intros H.
  - rewrite length_app, H.
    destruct (Nat.ltb_spec (length pre + GPT_BLOCK_SIZE) GPT_BLOCK_SIZE);
      [lia |].
    replace (length pre + GPT_BLOCK_SIZE - GPT_BLOCK_SIZE)%nat
      with (length pre) by lia.
    now rewrite skipn_app, skipn_all, Nat.sub_diag.
  - destruct (Nat.ltb_spec (length blk) GPT_BLOCK_SIZE); [reflexivity | lia].
Qed.

Lemma header_is_last_block_witness :
  locate_gpt_header (repeat x00 1000 ++ gpt_block_92)
  = gpt_header_check gpt_block_92.
Proof.
  apply (proj1 (header_is_last_block (repeat x00 1000) gpt_block_92)).
  vm_compute; reflexivity.
Defined.



(** X10.  A header size of 0 makes the CRC check empty: every block with a
    valid signature, a size field of 0 and a CRC field of 0 is accepted,
    whatever its other bytes are. *)
Theorem empty_window_accepted (blk : list byte) :
  memcmp0 blk 0 GPT_SIGNATURE = true ->
  gpt_size_field blk = 0 -> gpt_crc_self blk = 0 ->
  gpt_header_check blk = inr (zero_crc_self blk).
Proof.
  intros Hsig Hsize Hcrc.
  rewrite (gpt_header_check_window blk 0 Hsig Hsize) by lia.
  cbv zeta. rewrite Hcrc. reflexivity.
Qed.

Lemma empty_window_accepted_witness :
  gpt_header_check (pad 512 (GPT_SIGNATURE ++ repeat xff 4))
  = inr (zero_crc_self (pad 512 (GPT_SIGNATURE ++ repeat xff 4))).
Proof.
  apply empty_window_accepted; vm_compute; reflexivity.
Defined.

End GptMore.

(** ** GPT entries: names, UUIDs, sizes, and the table they are read from *)

Module GptEntryMore.
Import NvTegraParts Crc32Facts BufferFacts WordFacts Crc32More.

Section Destination.
Variable mbstate : Type.
Variable mbrlen_null : mbstate -> option mbstate.
Variable c16rtomb : mbstate -> Z -> option (list byte) * mbstate.
Variable MB_CUR_MAX : nat.
Variable mbs_auto : mbstate.

(** The loop never stores beyond [lim] bytes. *)
Lemma c16_loop_bound (buf : list Z) (lim : Z) :
  forall (mbs : mbstate) (str s : list byte),
    Z.of_nat (length str) <= lim ->
    c16_loop mbstate c16rtomb MB_CUR_MAX buf mbs str lim = Some s ->
    Z.of_nat (length s) <= lim.
Proof.
  induction buf as [| c buf IH]; intros mbs str s Hstr H; [discriminate |].
  cbn [c16_loop] in H.
  destruct (c16rtomb mbs c) as [[mb |] mbs'].
  - destruct ((length mb =? 0) || (MB_CUR_MAX <? length mb))%nat.
    + injection H as <-. exact Hstr.
    + cbv zeta in H.
      set (str' := str ++ firstn _ mb) in *.
      assert (Hl : Z.of_nat (length str') <= lim).
      { unfold str'. rewrite length_app, length_firstn. lia. }
      destruct (lim <=? Z.of_nat (length str')).
      * injection H as <-. exact Hl.
      * eapply IH; eassumption.
  - injection H as <-. exact Hstr.
Qed.

(** X11.  Whatever the library's conversions produce and whatever the
    code units are, a call with a destination of [len >= 1] bytes that
    ends with a stored string has stored at most [len] bytes, the last of
    them the terminating null: the destination is never overrun. *)
Theorem stored_name_fits (buf : list Z) (len : Z) (str : list byte) :
  1 <= len < 2 ^ 32 ->
  c16_to_string mbstate mbrlen_null c16rtomb MB_CUR_MAX mbs_auto buf len
  = Stored str ->
  Z.of_nat (length str) <= len /\ last str x01 = x00.
Proof.
  intros Hlen H. unfold c16_to_string in H.
  destruct (mbrlen_null mbs_auto) as [mbs |]; [| discriminate].
  destruct (c16_loop _ _ _ buf mbs [] (out_limit len)) as [s |] eqn:E;
    [| discriminate].
  injection H as <-.
  assert (Hlim : out_limit len = len - 1)
    by (unfold out_limit; apply Z.mod_small; lia).
  rewrite Hlim in E.
  apply c16_loop_bound in E; [| cbn [length]; lia].
  split.
  - rewrite length_app. cbn [length]. lia.
  - apply last_last.
Qed.
End Destination.

Lemma stored_name_fits_witness :
  Z.of_nat (length (repeat x41 19 ++ [x00])) <= 20
  /\ last (repeat x41 19 ++ [x00]) x01 = x00.
Proof.
  apply (stored_name_fits bool mbrlen_null_ascii c16rtomb_ascii 1 true
           name_36_A 20); [lia | vm_compute; reflexivity].
Defined.

(** *** UUIDs *)

Lemma bswap_32_sum (x : Z) :
  bswap_32 x
  = (x mod 2 ^ 8) * 2 ^ 24 + ((x / 2 ^ 8) mod 2 ^ 8) * 2 ^ 16
    + ((x / 2 ^ 16) mod 2 ^ 8) * 2 ^ 8 + (x / 2 ^ 24) mod 2 ^ 8.
Proof.
  unfold bswap_32. change 0xff with (Z.ones 8).
  rewrite !Z.land_ones, !Z.shiftr_div_pow2, !Z.shiftl_mul_pow2 by lia.
  pose proof (Z.mod_pos_bound x (2 ^ 8) ltac:(lia)).
  pose proof (Z.mod_pos_bound (x / 2 ^ 8) (2 ^ 8) ltac:(lia)).
  pose proof (Z.mod_pos_bound (x / 2 ^ 16) (2 ^ 8) ltac:(lia)).
  pose proof (Z.mod_pos_bound (x / 2 ^ 24) (2 ^ 8) ltac:(lia)).
  rewrite (lor_high_low _ _ 24) by lia.
  rewrite (lor_high_low _ _ 8) by lia.
  replace (x mod 2 ^ 8 * 2 ^ 24 + (x / 2 ^ 8) mod 2 ^ 8 * 2 ^ 16)
    with ((x mod 2 ^ 8 * 2 ^ 8 + (x / 2 ^ 8) mod 2 ^ 8) * 2 ^ 16) by lia.
  rewrite (lor_high_low _ _ 16) by lia. lia.
Qed.

Lemma bswap_16_sum (x : Z) :
  bswap_16 x = (x mod 2 ^ 8) * 2 ^ 8 + (x / 2 ^ 8) mod 2 ^ 8.
Proof.
  unfold bswap_16. change 0xff with (Z.ones 8).
  rewrite !Z.land_ones, !Z.shiftr_div_pow2, !Z.shiftl_mul_pow2 by lia.
  pose proof (Z.mod_pos_bound (x / 2 ^ 8) (2 ^ 8) ltac:(lia)).
  now rewrite (lor_high_low _ _ 8) by lia.
Qed.

Lemma byte_at_range (l : list byte) (i : nat) : 0 <= byte_at l i < 256.
Proof. unfold byte_at. apply b2z_range. Qed.

(** The byte-swapped first word, and the byte-swapped 16-bit words, in
    terms of the bytes of memory. *)
Lemma bswap_32_le32 (mem : list byte) (o : nat) :
  bswap_32 (le32 mem o)
  = byte_at mem o * 2 ^ 24 + byte_at mem (o + 1) * 2 ^ 16
    + byte_at mem (o + 2) * 2 ^ 8 + byte_at mem (o + 3).
Proof.
  rewrite bswap_32_sum, le32_sum.
  pose proof (byte_at_range mem o). pose proof (byte_at_range mem (o + 1)).
  pose proof (byte_at_range mem (o + 2)).
  pose proof (byte_at_range mem (o + 3)).
  generalize dependent (byte_at mem o).
  generalize dependent (byte_at mem (o + 1)).
  generalize dependent (byte_at mem (o + 2)).
  generalize dependent (byte_at mem (o + 3)).
  intros b3 ? b2 ? b1 ? b0 ?.
  change (2 ^ 8) with 256. change (2 ^ 16) with 65536.
  change (2 ^ 24) with 16777216.
  Z.div_mod_to_equations; lia.
Qed.

Lemma bswap_16_le16 (mem : list byte) (o : nat) :
  bswap_16 (le16 mem o) = byte_at mem o * 2 ^ 8 + byte_at mem (o + 1).
Proof.
  rewrite bswap_16_sum, le16_sum.
  pose proof (byte_at_range mem o). pose proof (byte_at_range mem (o + 1)).
  generalize dependent (byte_at mem o).
  generalize dependent (byte_at mem (o + 1)).
  intros b1 ? b0 ?.
  change (2 ^ 8) with 256.
  Z.div_mod_to_equations; lia.
Qed.

(** Reading back a stored word. *)
Lemma le32_le32_bytes (v : Z) (t : list byte) :
  0 <= v < 2 ^ 32 -> le32 (le32_bytes v ++ t) 0 = v.
Proof.
  intros Hv. rewrite le32_sum. unfold byte_at, le32_bytes.
  cbn [app nth Nat.add]. rewrite !b2z_z2b, !Z.shiftr_div_pow2 by lia.
  change (2 ^ 8) with 256. change (2 ^ 16) with 65536.
  change (2 ^ 24) with 16777216. change (2 ^ 32) with 4294967296 in Hv.
  Z.div_mod_to_equations; lia.
Qed.

Lemma b2z_le16_bytes (v : Z) :
  0 <= v < 2 ^ 16 ->
  b2z (z2b v) + b2z (z2b (Z.shiftr v 8)) * 2 ^ 8 = v.
Proof.
  intros Hv. rewrite !b2z_z2b, !Z.shiftr_div_pow2 by lia.
  change (2 ^ 8) with 256. change (2 ^ 16) with 65536 in Hv.
  Z.div_mod_to_equations; lia.
Qed.

(** X12.  The eleven numbers of a printed UUID are the sixteen stored
    bytes in the order they are stored: [time_low] is the first four read
    as a big-endian number, [time_mid] and [time_hi_and_version] the next
    two pairs read big-endian, and the last eight bytes follow one by
    one. *)
Theorem uuid_shown_in_stored_order (mem : list byte) (o : nat) :
  UUID_ARGS (uuid_of_bytes (le_uuid_dec mem o))
  = [ byte_at mem o * 2 ^ 24 + byte_at mem (o + 1) * 2 ^ 16
      + byte_at mem (o + 2) * 2 ^ 8 + byte_at mem (o + 3);
      byte_at mem (o + 4) * 2 ^ 8 + byte_at mem (o + 5);
      byte_at mem (o + 6) * 2 ^ 8 + byte_at mem (o + 7);
      byte_at mem (o + 8); byte_at mem (o + 9); byte_at mem (o + 10);
      byte_at mem (o + 11); byte_at mem (o + 12); byte_at mem (o + 13);
      byte_at mem (o + 14); byte_at mem (o + 15) ].
Proof.
  unfold UUID_ARGS, uuid_of_bytes, le_uuid_dec.
  cbn [time_low time_mid time_hi_and_version clock_seq_hi_and_reserved
       clock_seq_low node app].
  pose proof (byte_at_range mem o). pose proof (byte_at_range mem (o + 1)).
  pose proof (byte_at_range mem (o + 2)).
  pose proof (byte_at_range mem (o + 3)).
  pose proof (byte_at_range mem (o + 4)).
  pose proof (byte_at_range mem (o + 5)).
  pose proof (byte_at_range mem (o + 6)).
  pose proof (byte_at_range mem (o + 7)).
  f_equal; [| f_equal; [| f_equal]].
  - rewrite le32_le32_bytes; rewrite bswap_32_le32; [reflexivity | lia].
  - rewrite le16_sum. unfold byte_at at 1 2, le32_bytes, le16_bytes.
    cbn [app nth Nat.add].
    rewrite b2z_le16_bytes; rewrite bswap_16_le16;
      rewrite <- Nat.add_assoc; change (4 + 1)%nat with 5%nat;
      [reflexivity | lia].
  - rewrite le16_sum. unfold byte_at at 1 2, le32_bytes, le16_bytes.
    cbn [app nth Nat.add].
    rewrite b2z_le16_bytes; rewrite bswap_16_le16;
      rewrite <- Nat.add_assoc; change (6 + 1)%nat with 7%nat;
      [reflexivity | lia].
Qed.

Lemma bswap_32_bytes (b0 b1 b2 b3 : Z) :
  0 <= b0 < 256 -> 0 <= b1 < 256 -> 0 <= b2 < 256 -> 0 <= b3 < 256 ->
  bswap_32 (b0 + b1 * 2 ^ 8 + b2 * 2 ^ 16 + b3 * 2 ^ 24)
  = b0 * 2 ^ 24 + b1 * 2 ^ 16 + b2 * 2 ^ 8 + b3.
Proof.
  intros. rewrite bswap_32_sum.
  change (2 ^ 8) with 256. change (2 ^ 16) with 65536.
  change (2 ^ 24) with 16777216.
  Z.div_mod_to_equations; lia.
Qed.

Lemma bswap_16_bytes (b0 b1 : Z) :
  0 <= b0 < 256 -> 0 <= b1 < 256 ->
  bswap_16 (b0 + b1 * 2 ^ 8) = b0 * 2 ^ 8 + b1.
Proof.
  intros. rewrite bswap_16_sum. change (2 ^ 8) with 256.
  Z.div_mod_to_equations; lia.
Qed.

(** The bytes of a word that is given by its bytes. *)
Lemma le32_bytes_sum (a b c d : byte) :
  le32_bytes (b2z a + b2z b * 2 ^ 8 + b2z c * 2 ^ 16 + b2z d * 2 ^ 24)
  = [a; b; c; d].
Proof.
  pose proof (b2z_range a). pose proof (b2z_range b).
  pose proof (b2z_range c). pose proof (b2z_range d).
  unfold le32_bytes.
  repeat (apply f_equal2; [| try reflexivity]);
    apply b2z_inj; rewrite b2z_z2b, ?Z.shiftr_div_pow2 by lia;
    change (2 ^ 8) with 256; change (2 ^ 16) with 65536;
    change (2 ^ 24) with 16777216;
    Z.div_mod_to_equations; lia.
Qed.

Lemma le16_bytes_sum (a b : byte) :
  le16_bytes (b2z a + b2z b * 2 ^ 8) = [a; b].
Proof.
  pose proof (b2z_range a). pose proof (b2z_range b).
  unfold le16_bytes.
  repeat (apply f_equal2; [| try reflexivity]);
    apply b2z_inj; rewrite b2z_z2b, ?Z.shiftr_div_pow2 by lia;
    change (2 ^ 8) with 256;
    Z.div_mod_to_equations; lia.
Qed.

(** X13.  Decoding is its own inverse: [le_uuid_dec] applied to the
    sixteen bytes it produced gives back the sixteen bytes it was given,
    so no information is lost or mixed between the fields. *)
Theorem le_uuid_dec_round_trip (mem : list byte) (o : nat) :
  le_uuid_dec (le_uuid_dec mem o) 0
  = map (fun k => nth (o + k) mem x00) (seq 0 16).
Proof.
  pose proof (byte_at_range mem o). pose proof (byte_at_range mem (o + 1)).
  pose proof (byte_at_range mem (o + 2)).
  pose proof (byte_at_range mem (o + 3)).
  pose proof (byte_at_range mem (o + 4)).
  pose proof (byte_at_range mem (o + 5)).
  pose proof (byte_at_range mem (o + 6)).
  pose proof (byte_at_range mem (o + 7)).
  assert (P1 : le32_bytes (bswap_32 (le32 (le_uuid_dec mem o) 0))
               = [nth o mem x00; nth (o + 1) mem x00; nth (o + 2) mem x00;
                  nth (o + 3) mem x00]).
  { unfold le_uuid_dec.
    rewrite le32_le32_bytes; rewrite bswap_32_le32; [| lia].
    replace (byte_at mem o * 2 ^ 24 + byte_at mem (o + 1) * 2 ^ 16
             + byte_at mem (o + 2) * 2 ^ 8 + byte_at mem (o + 3))
      with (byte_at mem (o + 3) + byte_at mem (o + 2) * 2 ^ 8
            + byte_at mem (o + 1) * 2 ^ 16 + byte_at mem o * 2 ^ 24)
      by lia.
    rewrite bswap_32_bytes by assumption.
    replace (byte_at mem (o + 3) * 2 ^ 24 + byte_at mem (o + 2) * 2 ^ 16
             + byte_at mem (o + 1) * 2 ^ 8 + byte_at mem o)
      with (byte_at mem o + byte_at mem (o + 1) * 2 ^ 8
            + byte_at mem (o + 2) * 2 ^ 16 + byte_at mem (o + 3) * 2 ^ 24)
      by lia.
    apply le32_bytes_sum. }
  assert (P2 : forall k : nat,
             0 <= byte_at mem (o + k) * 2 ^ 8 + byte_at mem (o + k + 1)
             < 2 ^ 16 ->
             le16_bytes
               (bswap_16
                  (b2z (z2b (bswap_16 (le16 mem (o + k))))
                   + b2z (z2b (Z.shiftr (bswap_16 (le16 mem (o + k))) 8))
                     * 2 ^ 8))
             = [nth (o + k) mem x00; nth (o + k + 1) mem x00]).
  { intros k Hk.
    pose proof (byte_at_range mem (o + k)).
    pose proof (byte_at_range mem (o + k + 1)).
    rewrite b2z_le16_bytes; rewrite bswap_16_le16; [| exact Hk].
    replace (byte_at mem (o + k) * 2 ^ 8 + byte_at mem (o + k + 1))
      with (byte_at mem (o + k + 1) + byte_at mem (o + k) * 2 ^ 8) by lia.
    rewrite bswap_16_bytes by assumption.
    replace (byte_at mem (o + k + 1) * 2 ^ 8 + byte_at mem (o + k))
      with (byte_at mem (o + k) + byte_at mem (o + k + 1) * 2 ^ 8) by lia.
    apply le16_bytes_sum. }
  assert (Q : forall k : nat,
             (k = 4 \/ k = 6)%nat ->
             le16 (le_uuid_dec mem o) (0 + k)
             = b2z (z2b (bswap_16 (le16 mem (o + k))))
               + b2z (z2b (Z.shiftr (bswap_16 (le16 mem (o + k))) 8))
                 * 2 ^ 8).
  { intros k [-> | ->]; rewrite le16_sum;
      unfold byte_at, le_uuid_dec, le32_bytes, le16_bytes;
      cbn [app nth Nat.add]; reflexivity. }
  unfold le_uuid_dec at 1. rewrite P1.
  rewrite (Q 4%nat), (Q 6%nat) by auto.
  rewrite (P2 4%nat), (P2 6%nat)
    by (pose proof (byte_at_range mem (o + 4 + 1));
        pose proof (byte_at_range mem (o + 6 + 1)); lia).
  unfold le_uuid_dec, le32_bytes, le16_bytes.
  cbn [app nth Nat.add map seq].
  rewrite <- !Nat.add_assoc. cbn [Nat.add app].
  rewrite Nat.add_0_r. reflexivity.
Qed.

(** *** The entry line *)

Lemma le32_range (l : list byte) (o : nat) : 0 <= le32 l o < 2 ^ 32.
Proof.
  rewrite le32_sum.
  pose proof (byte_at_range l o). pose proof (byte_at_range l (o + 1)).
  pose proof (byte_at_range l (o + 2)). pose proof (byte_at_range l (o + 3)).
  lia.
Qed.

Lemma le64_range (l : list byte) (o : nat) : 0 <= le64 l o < 2 ^ 64.
Proof.
  unfold le64. pose proof (le32_range l o). pose proof (le32_range l (o + 4)).
  rewrite Z.shiftl_mul_pow2, lor_low_high by lia. lia.
Qed.



(** *** The table buffer *)

(** The table size and the size of its buffer, without overflow. *)
Lemma gpt_count_bounds (n es ss : Z) :
  0 < ss -> 0 <= n -> 0 <= es -> n * es + ss <= 2 ^ 32 ->
  gpt_size n es = n * es
  /\ n * es <= gpt_count n es ss < n * es + ss
  /\ gpt_count n es ss mod ss = 0.
Proof.
  intros Hss Hn Hes Hfit.
  assert (Hg : 0 <= n * es) by nia.
  unfold gpt_count, gpt_blocks, gpt_size.
  rewrite (Z.mod_small (n * es)) by lia.
  generalize dependent (n * es). clear n es Hn Hes. intros g Hfit Hg.
  pose proof (Z.div_mod g ss ltac:(lia)) as Hdm.
  pose proof (Z.mod_pos_bound g ss Hss) as Hr.
  assert (Hq : 0 <= g / ss) by (apply Z.div_pos; lia).
  assert (Hqs : ss * (g / ss) <= g) by lia.
  assert (Hq2 : g / ss <= g) by nia.
  set (c := if g mod ss =? 0 then 0 else 1).
  assert (Hc : (c = 0 /\ g mod ss = 0) \/ (c = 1 /\ 0 < g mod ss)).
  { unfold c. destruct (Z.eqb_spec (g mod ss) 0); [left | right]; lia. }
  rewrite (Z.mod_small (g / ss + c)) by lia.
  assert (Hb : (g / ss + c) * ss = g - g mod ss + c * ss) by lia.
  rewrite (Z.mod_small ((g / ss + c) * ss)) by nia.
  split; [reflexivity |]. split; [nia |].
  apply Z.mod_mul. lia.
Qed.

(** X15.  As long as the table size and one sector more fit 32 bits, the
    buffer allocated for the table holds the whole table and is the least
    multiple of the sector size that does. *)
Theorem table_buffer_covers_table (n es ss : Z) :
  0 < ss -> 0 <= n -> 0 <= es -> n * es + ss <= 2 ^ 32 ->
  gpt_size n es = n * es
  /\ n * es <= gpt_count n es ss < n * es + ss
  /\ gpt_count n es ss mod ss = 0.
Proof. exact (gpt_count_bounds n es ss). Qed.

Lemma table_buffer_covers_table_witness :
  gpt_size 12 128 = 12 * 128
  /\ 12 * 128 <= gpt_count 12 128 4096 < 12 * 128 + 4096
  /\ gpt_count 12 128 4096 mod 4096 = 0.
Proof. apply table_buffer_covers_table; lia. Defined.

(** X16.  With entries of at least 128 bytes, and a table size that with
    one sector more fits 32 bits, every entry the loop prints is read
    from inside the table buffer, at [i * entry_size]. *)
Theorem entries_inside_table (gpt_buf : list byte) (n es ss i : Z) :
  0 < ss -> 128 <= es -> n * es + ss <= 2 ^ 32 ->
  Z.of_nat (length gpt_buf) = gpt_count n es ss ->
  0 <= i < n ->
  gpt_entry_at gpt_buf i es
  = Some (slice gpt_buf (Z.to_nat (i * es)) GPT_ENTRY_SIZE).
Proof.
  intros Hss Hes Hfit Hlen Hi.
  destruct (gpt_count_bounds n es ss) as (_ & Hc & _);
    [lia | lia | lia | lia |].
  unfold gpt_entry_at. cbv zeta.
  assert (Hie : 0 <= i * es /\ i * es + es <= n * es) by nia.
  rewrite (Z.mod_small (i * es)) by lia.
  rewrite Hlen. unfold GPT_ENTRY_SIZE at 1.
  destruct (Z.leb_spec (i * es + Z.of_nat 128) (gpt_count n es ss));
    [reflexivity | lia].
Qed.

Lemma entries_inside_table_witness :
  gpt_entry_at (repeat x00 4096) 11 128
  = Some (slice (repeat x00 4096) (Z.to_nat (11 * 128)) GPT_ENTRY_SIZE).
Proof.
  apply (entries_inside_table (repeat x00 4096) 12 128 4096 11);
    try lia; vm_compute; reflexivity.
Defined.



(** X18.  The product [num_entries * entry_size] is not checked for
    overflow: when it is a multiple of 2^32 the table size wraps to 0,
    a buffer of 0 bytes is asked for and 0 bytes are read, and every
    entry read from that buffer lies outside it. *)
Theorem wrapped_table_is_empty (gpt_buf : list byte) (n es ss i : Z) :
  0 < ss -> (n * es) mod 2 ^ 32 = 0 ->
  Z.of_nat (length gpt_buf) = gpt_count n es ss ->
  gpt_count n es ss = 0 /\ gpt_entry_at gpt_buf i es = None.
Proof.
  intros Hss Hw Hlen.
  assert (Hcount : gpt_count n es ss = 0).
  { unfold gpt_count, gpt_blocks, gpt_size. rewrite Hw.
    reflexivity. }
  split; [exact Hcount |].
  unfold gpt_entry_at. cbv zeta. rewrite Hlen, Hcount.
  pose proof (Z.mod_pos_bound (i * es) (2 ^ 32) ltac:(lia)).
  unfold GPT_ENTRY_SIZE.
  destruct (Z.leb_spec ((i * es) mod 2 ^ 32 + Z.of_nat 128) 0);
    [lia | reflexivity].
Qed.

Lemma wrapped_table_is_empty_witness :
  gpt_count 0x2000000 128 512 = 0 /\ gpt_entry_at [] 0 128 = None.
Proof.
  apply (wrapped_table_is_empty [] 0x2000000 128 512 0);
    [lia | reflexivity | reflexivity].
Defined.

End GptEntryMore.

(** ** hexdump: what the two columns show *)

Module HexdumpMore.
Import NvTegraParts.

Lemma hex_bytes_app (a b : list hex_piece) :
  hex_bytes (a ++ b) = hex_bytes a ++ hex_bytes b.
Proof.
  induction a as [| p a IH]; [reflexivity |].
  destruct p; cbn [app hex_bytes]; rewrite IH; reflexivity.
Qed.

Lemma text_chars_app (a b : list hex_piece) :
  text_chars (a ++ b) = text_chars a ++ text_chars b.
Proof.
  induction a as [| p a IH]; [reflexivity |].
  destruct p; cbn [app text_chars]; rewrite IH; reflexivity.
Qed.

Lemma hex_bytes_chars (f : nat -> byte) (l : list nat) :
  hex_bytes (map (fun k => HexChar (f k)) l) = [].
Proof. induction l as [| k l IH]; [reflexivity | exact IH]. Qed.

Lemma text_chars_chars (f : nat -> byte) (l : list nat) :
  text_chars (map (fun k => HexChar (f k)) l) = map f l.
Proof.
  induction l as [| k l IH]; [reflexivity |].
  cbn [map text_chars]. now rewrite IH.
Qed.

(** [i & 0x0F] is the position of index [i] in its row. *)
Lemma row_position (q r : nat) :
  (r < 16)%nat -> Z.land (Z.of_nat (16 * q + r)) 0x0F = Z.of_nat r.
Proof.
  intros Hr. change 0x0F with (Z.ones 4). rewrite Z.land_ones by lia.
  change (2 ^ 4) with 16. symmetry.
  apply (Z.mod_unique_pos _ _ (Z.of_nat q)); lia.
Qed.

Lemma map_nth_seq (buf : list byte) (n : nat) :
  (n <= length buf)%nat ->
  map (fun i => nth i buf x00) (seq 0 n) = firstn n buf.
Proof.
  revert buf. induction n as [| n IH]; intros buf Hn; [reflexivity |].
  destruct buf as [| b buf]; [cbn [length] in Hn; lia |].
  cbn [seq map nth firstn]. f_equal.
  rewrite <- seq_shift, map_map. cbn [nth].
  apply IH. cbn [length] in Hn. lia.
Qed.

Section Columns.
Variable isprint : byte -> bool.

Lemma hex_column (buf : list byte) (n : nat) :
  forall a j : nat,
    hex_bytes (hexdump_loop isprint buf (seq a n) j)
    = map (fun i => nth i buf x00) (seq a n).
Proof.
  induction n as [| n IH]; intros a j; [reflexivity |].
  cbn [seq hexdump_loop map].
  rewrite !hex_bytes_app.
  destruct (Z.land (Z.of_nat a) 0x0F =? 0);
    destruct (Z.land (Z.of_nat a) 0x07 =? 0);
    destruct (Z.land (Z.of_nat a) 0x0F =? 0x0F);
    cbn [hex_bytes app]; rewrite ?hex_bytes_app, ?hex_bytes_chars;
    cbn [hex_bytes app]; now rewrite IH.
Qed.

(** The text column after the indices [a .. a+n-1], when the loop is at
    position [a] of row [q]: the full rows from row [q] on. *)
Lemma text_column (buf : list byte) (n : nat) :
  forall a q : nat,
    (16 * q <= a < 16 * q + 16)%nat ->
    exists q' : nat,
      (16 * q' <= a + n < 16 * q' + 16)%nat /\ (q <= q')%nat
      /\ text_chars (hexdump_loop isprint buf (seq a n) (16 * q))
         = map (fun k => text_char isprint (nth k buf x00))
               (seq (16 * q) (16 * q' - 16 * q)).
Proof.
  induction n as [| n IH]; intros a q Ha.
  - exists q. split; [lia |]. split; [lia |].
    rewrite Nat.sub_diag. reflexivity.
  - cbn [seq hexdump_loop].
    rewrite !text_chars_app.
    assert (E0 : forall c : bool,
               text_chars (if c then [HexOffset a] else []) = [])
      by (intros [|]; reflexivity).
    assert (E1 : forall c : bool,
               text_chars (if c then [HexGap] else []) = [])
      by (intros [|]; reflexivity).
    rewrite E0, E1. cbn [app text_chars].
    assert (Hpos : Z.land (Z.of_nat a) 0x0F = Z.of_nat (a - 16 * q)).
    { rewrite <- (row_position q (a - 16 * q)) by lia.
      do 2 f_equal. lia. }
    rewrite Hpos.
    destruct (Z.eqb_spec (Z.of_nat (a - 16 * q)) 0x0F) as [E | N].
    + assert (Ea : S a = (16 * S q)%nat) by lia.
      destruct (IH (S a) (S q) ltac:(lia)) as (q' & Hq' & Hle & Ht).
      exists q'. split; [lia |]. split; [lia |].
      cbn [text_chars]. rewrite text_chars_app, text_chars_chars.
      cbn [text_chars].
      replace (a + 1)%nat with (16 * S q)%nat by lia.
      rewrite Ht, <- map_app. f_equal.
      replace (16 * S q - 16 * q)%nat with 16%nat by lia.
      replace (16 * q' - 16 * q)%nat
        with (16 + (16 * q' - 16 * S q))%nat by lia.
      rewrite seq_app. f_equal. f_equal. lia.
    + destruct (IH (S a) q ltac:(lia)) as (q' & Hq' & Hle & Ht).
      exists q'. split; [lia |]. split; [lia |]. exact Ht.
Qed.

(** X19.  [hexdump(buf, len)] shows in its hex column exactly the first
    [len] bytes, in order; its text column shows the bytes of the full
    16-byte rows only, unprintable ones as a dot, so the bytes of a last,
    incomplete row appear in hex but not as text.  With [len] beyond the
    object the dump reads outside it. *)
Theorem hexdump_columns (buf : list byte) (len : nat) :
  ((len <= length buf)%nat ->
   exists out : list hex_piece,
     hexdump isprint buf len = Some out
     /\ hex_bytes out = firstn len buf
     /\ text_chars out
        = map (text_char isprint) (firstn (16 * (len / 16)) buf))
  /\ ((length buf < len)%nat -> hexdump isprint buf len = None).
Proof.
  split; intros Hlen; unfold hexdump.
  - destruct (Nat.leb_spec len (length buf)); [| lia].
    eexists. split; [reflexivity |]. split.
    + rewrite hex_column. now apply map_nth_seq.
    + destruct (text_column buf len 0 0 ltac:(lia)) as (q' & Hq' & _ & Ht).
      change (16 * 0)%nat with 0%nat in Ht. rewrite Ht.
      rewrite Nat.sub_0_r.
      assert (Eq : q' = (len / 16)%nat).
      { apply (Nat.div_unique len 16 q' (len - 16 * q')); lia. }
      rewrite <- Eq.
      rewrite <- (map_nth_seq buf (16 * q')) by lia.
      now rewrite map_map.
  - destruct (Nat.leb_spec len (length buf)); [lia | reflexivity].
Qed.

End Columns.

Lemma hexdump_columns_witness :
  exists out : list hex_piece,
    hexdump isprint_c (repeat x41 40) 20 = Some out
    /\ hex_bytes out = firstn 20 (repeat x41 40)
    /\ text_chars out
       = map (text_char isprint_c) (firstn (16 * (20 / 16)) (repeat x41 40)).
Proof.
  apply (proj1 (hexdump_columns isprint_c (repeat x41 40) 20)).
  apply Nat.leb_le. vm_compute; reflexivity.
Defined.

End HexdumpMore.

(** ** Configuration block: the result lines, reads and termination *)

Module ConfigBlockMore.
Import ConfigBlock BufferFacts Crc32Facts WordFacts ConfigBlockFacts.

(** [(x & (0xff << k)) >> k] is byte [k/8] of [x]. *)
Lemma masked_byte (x k : Z) :
  0 <= k -> Z.shiftr (Z.land x (Z.shiftl 0xff k)) k = (x / 2 ^ k) mod 2 ^ 8.
Proof.
  intros Hk. rewrite Z.shiftr_land, Z.shiftr_shiftl_l by lia.
  rewrite Z.sub_diag, Z.shiftl_0_r. change 0xff with (Z.ones 8).
  now rewrite Z.land_ones, Z.shiftr_div_pow2 by lia.
Qed.

Lemma ntohl_sum (x : Z) :
  ntohl x = (x mod 2 ^ 8) * 2 ^ 24 + ((x / 2 ^ 8) mod 2 ^ 8) * 2 ^ 16
            + ((x / 2 ^ 16) mod 2 ^ 8) * 2 ^ 8 + (x / 2 ^ 24) mod 2 ^ 8.
Proof.
  unfold ntohl. change 0xff with (Z.ones 8).
  rewrite !Z.land_ones, !Z.shiftr_div_pow2, !Z.shiftl_mul_pow2 by lia.
  pose proof (Z.mod_pos_bound x (2 ^ 8) ltac:(lia)).
  pose proof (Z.mod_pos_bound (x / 2 ^ 8) (2 ^ 8) ltac:(lia)).
  pose proof (Z.mod_pos_bound (x / 2 ^ 16) (2 ^ 8) ltac:(lia)).
  pose proof (Z.mod_pos_bound (x / 2 ^ 24) (2 ^ 8) ltac:(lia)).
  rewrite (lor_high_low _ _ 24) by lia.
  rewrite (lor_high_low _ _ 8) by lia.
  replace (x mod 2 ^ 8 * 2 ^ 24 + (x / 2 ^ 8) mod 2 ^ 8 * 2 ^ 16)
    with ((x mod 2 ^ 8 * 2 ^ 8 + (x / 2 ^ 8) mod 2 ^ 8) * 2 ^ 16) by lia.
  rewrite (lor_high_low _ _ 16) by lia. lia.
Qed.

(** The six octets and the serial number in terms of the six payload
    bytes. *)
Lemma mac_octets_serial_sum (bs : list byte) :
  mac_octets (eth_of_bytes bs)
  = [byte_at bs 0; byte_at bs 1; byte_at bs 2;
     byte_at bs 3; byte_at bs 4; byte_at bs 5]
  /\ serial_of (eth_of_bytes bs)
     = byte_at bs 3 * 2 ^ 16 + byte_at bs 4 * 2 ^ 8 + byte_at bs 5
  /\ 0 <= serial_of (eth_of_bytes bs) < 2 ^ 24.
Proof.
  unfold mac_octets, serial_of, eth_of_bytes. cbn [oui nic].
  change 0x0000ff with (Z.shiftl 0xff 0).
  change 0x00ff00 with (Z.shiftl 0xff 8).
  change 0xff0000 with (Z.shiftl 0xff 16).
  rewrite !masked_byte by lia.
  rewrite ntohl_sum, Z.shiftr_div_pow2 by lia.
  rewrite !le24_sum.
  change (0 + 1)%nat with 1%nat. change (0 + 2)%nat with 2%nat.
  change (3 + 1)%nat with 4%nat. change (3 + 2)%nat with 5%nat.
  pose proof (byte_at_nonneg bs 0). pose proof (byte_at_nonneg bs 1).
  pose proof (byte_at_nonneg bs 2). pose proof (byte_at_nonneg bs 3).
  pose proof (byte_at_nonneg bs 4). pose proof (byte_at_nonneg bs 5).
  assert (Hr : forall i, byte_at bs i < 256)
    by (intros i; unfold byte_at; apply b2z_range).
  pose proof (Hr 0%nat). pose proof (Hr 1%nat). pose proof (Hr 2%nat).
  pose proof (Hr 3%nat). pose proof (Hr 4%nat). pose proof (Hr 5%nat).
  clear Hr.
  generalize dependent (byte_at bs 0). generalize dependent (byte_at bs 1).
  generalize dependent (byte_at bs 2). generalize dependent (byte_at bs 3).
  generalize dependent (byte_at bs 4). generalize dependent (byte_at bs 5).
  intros b5 ? ? b4 ? ? b3 ? ? b2 ? ? b1 ? ? b0 ? ?.
  change (2 ^ 0) with 1. change (2 ^ 8) with 256.
  change (2 ^ 16) with 65536. change (2 ^ 24) with 16777216.
  split; [| split].
  - repeat (apply f_equal2; [Z.div_mod_to_equations; lia |]). reflexivity.
  - Z.div_mod_to_equations; lia.
  - Z.div_mod_to_equations; lia.
Qed.

(** X20.  The [MAC:] line shows the six payload bytes of the MAC tag in
    the order they are stored, and the serial number is the last three of
    them read as a big-endian number, so it is always below 2^24. *)
Theorem mac_line_and_serial (bs : list byte) :
  mac_octets (eth_of_bytes bs)
  = [byte_at bs 0; byte_at bs 1; byte_at bs 2;
     byte_at bs 3; byte_at bs 4; byte_at bs 5]
  /\ serial_of (eth_of_bytes bs)
     = byte_at bs 3 * 2 ^ 16 + byte_at bs 4 * 2 ^ 8 + byte_at bs 5
  /\ 0 <= serial_of (eth_of_bytes bs) < 2 ^ 24.
Proof. exact (mac_octets_serial_sum bs). Qed.

(** The serial number is always the one of the decoded address. *)
Lemma tag_walk_serial (fuel : nat) :
  forall (cb : list byte) (off : Z) (d d' : decoded),
  (exists bs, eth_addr d = eth_of_bytes bs) ->
  serial d = serial_of (eth_addr d) ->
  tag_walk fuel cb off d = Decoded d' ->
  (exists bs, eth_addr d' = eth_of_bytes bs)
  /\ serial d' = serial_of (eth_addr d').
Proof.
  induction fuel as [| fuel IH]; intros cb off d d' He Hs H;
    cbn [tag_walk] in H; [discriminate |].
  destruct (tag_at cb off) as [tag |]; [| discriminate].
  destruct (negb (flags tag =? TAG_FLAG_VALID)).
  { injection H as <-. split; assumption. }
  destruct (id tag =? TAG_MAC).
  - destruct (read_bytes cb (off + 4) 6) as [bs |]; [| discriminate].
    apply IH in H; [exact H | now exists bs | reflexivity].
  - destruct (id tag =? TAG_HW).
    + destruct (read_bytes cb (off + 4) 8); [| discriminate].
      apply IH in H; [exact H | exact He | exact Hs].
    + apply IH in H; [exact H | exact He | exact Hs].
Qed.



(** X22.  On a 512-byte allocation every run comes to an end: the tag
    walk stops at a tag whose valid flag is clear or leaves the block, and
    never uses up its 128 iterations. *)
Theorem run_comes_to_an_end (sys : syscalls) (blk : list byte) :
  malloc_block sys = Some blk -> length blk = 512%nat ->
  (forall data, read_res sys = ReadBytes data -> (length data <= 512)%nat) ->
  read_config_block sys <> FuelExhausted.
Proof.
  intros Hm Hlen Hdata. unfold read_config_block. rewrite Hm.
  destruct (negb (open_ok sys)); [discriminate |].
  destruct (lseek_pos sys); [| discriminate].
  destruct (_ <? _); [discriminate |].
  apply decode_block_fuel.
  destruct (read_res sys) as [| data] eqn:Hr; cbn [after_read]; [lia |].
  specialize (Hdata data eq_refl).
  rewrite length_app, length_skipn. lia.
Qed.

Lemma run_comes_to_an_end_witness :
  read_config_block (full_read block_cursor_512) <> FuelExhausted.
Proof.
  apply (run_comes_to_an_end _ (repeat x00 512)).
  - reflexivity.
  - vm_compute; reflexivity.
  - intros data H. injection H as <-. apply Nat.leb_le.
    vm_compute; reflexivity.
Defined.

(** X23.  A [read] that delivers fewer than 512 bytes ends the run with
    [IoError] and return value -1 before any tag is looked at, whatever
    the bytes delivered are. *)
Theorem short_read_stops_run (sys : syscalls) (pos : Z)
    (blk data : list byte) :
  open_ok sys = true -> lseek_pos sys = Some pos ->
  malloc_block sys = Some blk ->
  read_res sys = ReadBytes data -> (length data < 512)%nat ->
  read_config_block sys = IoError (Z.of_nat (length data))
  /\ ret_of (read_config_block sys) = Some (-1).
Proof.
  intros Ho Hs Hm Hr Hl.
  assert (E : read_config_block sys = IoError (Z.of_nat (length data))).
  { unfold read_config_block.
    rewrite Ho, Hs, Hm, Hr. cbn [negb read_ret].
    unfold SIZE_BITS, TRDX_CFG_BLOCK_MAX_SIZE.
    rewrite Z.mod_small by lia.
    destruct (Z.ltb_spec (Z.of_nat (length data)) 512); [reflexivity | lia]. }
  rewrite E. split; reflexivity.
Qed.

Lemma short_read_stops_run_witness :
  read_config_block short_read = IoError 100
  /\ ret_of (read_config_block short_read) = Some (-1).
Proof.
  assert (Hl : (length (firstn 100 block_good) < 512)%nat)
    by (apply Nat.ltb_lt; vm_compute; reflexivity).
  exact (short_read_stops_run short_read 0 (repeat x00 512)
           (firstn 100 block_good) eq_refl eq_refl eq_refl eq_refl Hl).
Defined.

(** *** Runs on a device *)

(** X24.  A run on a device: a device file that cannot be opened fails
    the run at once; a negative offset counts from the end of the device
    and fails the seek when it reaches before the start; with fewer than
    512 bytes between the position and the end the run is an [IoError];
    otherwise the 512 bytes at the position are decoded and nothing else
    of the device matters. *)
Theorem run_on_device (d : list byte) (skip : Z) (blk : list byte) :
  length blk = 512%nat ->
  let pos := if skip <? 0 then Z.of_nat (length d) + skip else skip in
  read_config_block (syscalls_on None skip blk) = OpenFailed
  /\ (pos < 0 ->
      read_config_block (syscalls_on (Some d) skip blk) = SeekFailed)
  /\ (0 <= pos -> Z.of_nat (length d) < pos + 512 ->
      exists n, 0 <= n < 512
                /\ read_config_block (syscalls_on (Some d) skip blk)
                   = IoError n)
  /\ (0 <= pos -> pos + 512 <= Z.of_nat (length d) ->
      read_config_block (syscalls_on (Some d) skip blk)
      = decode_block (slice d (Z.to_nat pos) 512)).
Proof.
  intros Hblk pos. split; [reflexivity |].
  unfold read_config_block, syscalls_on. fold pos.
  cbn [open_ok lseek_pos malloc_block read_res negb read_ret after_read].
  unfold SIZE_BITS, TRDX_CFG_BLOCK_MAX_SIZE.
  set (data := firstn 512 (skipn (Z.to_nat pos) d)).
  assert (Hdata : length data = Nat.min 512 (length d - Z.to_nat pos))
    by (unfold data; now rewrite length_firstn, length_skipn).
  split; [| split].
  - intros Hneg. destruct (Z.ltb_spec pos 0); [reflexivity | lia].
  - intros H0 Hshort. destruct (Z.ltb_spec pos 0); [lia |].
    exists (Z.of_nat (length data)).
    rewrite Z.mod_small by lia.
    destruct (Z.ltb_spec (Z.of_nat (length data)) 512); [| lia].
    split; [lia | reflexivity].
  - intros H0 Hfull. destruct (Z.ltb_spec pos 0); [lia |].
    rewrite Z.mod_small by lia.
    destruct (Z.ltb_spec (Z.of_nat (length data)) 512); [lia |].
    f_equal. unfold slice. fold data.
    rewrite skipn_all2 by lia. apply app_nil_r.
Qed.

Lemma run_on_device_witness :
  read_config_block
    (syscalls_on (Some (repeat xff 100 ++ block_good)) (-512)
       (repeat x00 512))
  = decode_block
      (slice (repeat xff 100 ++ block_good)
         (Z.to_nat (Z.of_nat (length (repeat xff 100 ++ block_good)) + -512))
         512).
Proof.
  assert (Hblk : length (repeat x00 512) = 512%nat)
    by (vm_compute; reflexivity).
  assert (H0 : 0 <= Z.of_nat (length (repeat xff 100 ++ block_good)) + -512)
    by (vm_compute; discriminate).
  assert (H1 : Z.of_nat (length (repeat xff 100 ++ block_good)) + -512 + 512
               <= Z.of_nat (length (repeat xff 100 ++ block_good)))
    by (vm_compute; discriminate).
  exact (proj2 (proj2 (proj2
           (run_on_device (repeat xff 100 ++ block_good) (-512)
              (repeat x00 512) Hblk))) H0 H1).
Defined.

(** The values a run can return. *)
Lemma ret_of_values (o : outcome) :
  ret_of o = Some 0 \/ ret_of o = Some (-1) \/ ret_of o = None.
Proof.
  destruct o; cbn [ret_of]; auto.
  destruct (module_entry _); auto.
Qed.



End ConfigBlockMore.
